(** * The cart cache of the online boutique (cartservice/cache.go)

    A shallow embedding of [config.Validate], [cartCacheImpl.Init],
    [cartCacheImpl.Add], [cartCacheImpl.Get] and [cartCacheImpl.Remove].

    The component talks to a Redis server through go-redis.  Every command
    it issues is an explicit [call]; a method of the component is a finite
    program of calls ([Prog]), and a server is a [handler] that answers
    them.  Statements about error handling quantify over every handler;
    statements about stored data are made against [redis], the documented
    behaviour of the commands the source uses. *)

From Stdlib Require Import ZArith String Ascii List Lia DecimalString DecimalZ.
From stdpp Require Import base decidable option list gmap strings.

Set Warnings "-register-all".

Local Open Scope Z_scope.

(** ** Go values *)

(** The error values this package can see.  [redis_Nil] is go-redis's
    sentinel [redis.Nil]; [errNotFound] is the package's own
    [errNotFound{}]; [fmt_Errorf] is what [fmt.Errorf] builds from a
    constant format string; [lib_error] stands for any other error value a
    library hands back (a transport failure, a parse failure, ...). *)
Inductive GoError : Type :=
  | redis_Nil
  | errNotFound
  | fmt_Errorf (msg : string)
  | json_SyntaxError
  | json_UnmarshalTypeError
  | lib_error (msg : string).

#[global] Instance GoError_eq_dec : EqDecision GoError.
Proof. solve_decision. Defined.

(** Go's [error] interface: [None] is [nil]. *)
Abbreviation error := (option GoError).

(** [func (e errNotFound) Error() string]. *)
Definition errNotFound_Error : string := "not found".

(** [time.Duration]: a count of nanoseconds. *)
Abbreviation Duration := Z.

(** Modelled from the spec: the declaration of [CartItem] lives in another
    file of package cartservice; the spec gives a product identifier (a
    string) and a quantity (an integer).  The quantity is a 32-bit signed
    integer, see [int32]. *)
Record CartItem : Type := mkCartItem {
  ProductID : string;
  Quantity : Z
}.

#[global] Instance CartItem_eq_dec : EqDecision CartItem.
Proof. solve_decision. Defined.

(** The zero value of [CartItem] ([var item CartItem]). *)
Definition CartItem_zero : CartItem := mkCartItem "" 0.

(** ** Configuration *)

Record config : Type := mkConfig {
  Host : string;   (* toml:"cache_host" *)
  TTL : string     (* toml:"cache_ttl" *)
}.

(** ** The Redis client as a stream of calls *)

Record redis_Options : Type := { Addr : string }.

Inductive call : Type :=
  | NewClient (opt : redis_Options)
  | Ping
  | LPush (key : string) (value : string)
  | Expire (key : string) (expiration : Duration)
  | LRange (key : string) (start stop : Z)
  | Del (key : string).

#[global] Instance redis_Options_eq_dec : EqDecision redis_Options.
Proof. solve_decision. Defined.

#[global] Instance call_eq_dec : EqDecision call.
Proof. solve_decision. Defined.

(** What the caller reads back from a command: [.Err()] for the commands
    used for their effect, [.Result()] for [LRange]. *)
Definition reply (c : call) : Type :=
  match c with
  | NewClient _ => unit
  | LRange _ _ _ => (list string * error)%type
  | _ => error
  end.

(** A method body: a finite tree of calls. *)
Inductive Prog (A : Type) : Type :=
  | Ret (a : A)
  | Call (c : call) (k : reply c -> Prog A).

Arguments Ret {A} a.
Arguments Call {A} c k.

Fixpoint Prog_bind {A B : Type} (f : A -> Prog B) (p : Prog A) : Prog B :=
  match p with
  | Ret a => f a
  | Call c k => Call c (fun r => Prog_bind f (k r))
  end.

#[global] Instance Prog_mret : MRet Prog := @Ret.
#[global] Instance Prog_mbind : MBind Prog := @Prog_bind.

Definition invoke (c : call) : Prog (reply c) := Call c Ret.

(** A server: it answers each call from its state. *)
Definition handler (Σ : Type) : Type := forall c : call, Σ -> reply c * Σ.

(** Running a program against a server gives the result, the final server
    state and the calls issued, oldest first. *)
Fixpoint run {Σ A : Type} (h : handler Σ) (p : Prog A) (s : Σ)
  : A * Σ * list call :=
  match p with
  | Ret a => (a, s, [])
  | Call c k =>
      let '(r, s1) := h c s in
      let '(a, s2, tr) := run h (k r) s1 in
      (a, s2, c :: tr)
  end.

Definition result {Σ A : Type} (x : A * Σ * list call) : A := x.1.1.
Definition final {Σ A : Type} (x : A * Σ * list call) : Σ := x.1.2.
Definition trace {Σ A : Type} (x : A * Σ * list call) : list call := x.2.

(** ** What the package takes from the standard library *)

(** [time.ParseDuration]. *)
Class DurationParser : Type :=
  time_ParseDuration : string -> Duration * error.

(** [json.Marshal] and [json.Unmarshal] at type [CartItem].  [Unmarshal]
    is given the zero item ([var item CartItem]) and reports what it left
    in it. *)
Class Codec : Type := {
  json_Marshal : CartItem -> string * error;
  json_Unmarshal : string -> CartItem * error
}.

(** ** The component

    The methods other than [Init] are reached only through the component
    that [Init] has filled in: weaver calls [Init] before it hands the
    component out, so [redisCli] is set when they run. *)

Record redis_Client : Type := { opt_of : redis_Options }.

Record cartCacheImpl : Type := mkImpl {
  Config : config;
  redisCli : option redis_Client;
  ttl : Duration
}.

Section Cache.
Context {parser : DurationParser} {codec : Codec}.

(** [func (cfg *config) Validate() error] *)
Definition Validate (cfg : config) : error :=
  if decide (Host cfg ≠ "") then
    Some (fmt_Errorf "distributed cache host must be set")
  else
    match (time_ParseDuration (TTL cfg)).2 with
    | Some _ => Some (fmt_Errorf "distributed cache TTL must be a valid duration")
    | None => None
    end.

(** [func (c *cartCacheImpl) Init(ctx) (err error)].  The receiver is
    mutated in place; the program returns it together with [err]. *)
Definition Init (c : cartCacheImpl) : Prog (cartCacheImpl * error) :=
  let cfg := Config c in
  let '(d, err) := time_ParseDuration (TTL cfg) in
  let c := mkImpl (Config c) (redisCli c) d in
  match err with
  | Some e => Ret (c, Some e)
  | None =>
      let o := {| Addr := Host cfg |} in
      _ ← invoke (NewClient o);
      let c := mkImpl (Config c) (Some {| opt_of := o |}) (ttl c) in
      err ← invoke Ping;
      Ret (c, err)
  end.

(** The [for _, item := range val] loop of [Add]: the error it returns
    from inside the loop, or [None] when the loop runs to its end. *)
Fixpoint Add_loop (key : string) (val : list CartItem) : Prog error :=
  match val with
  | [] => Ret None
  | item :: val =>
      let '(encItem, err) := json_Marshal item in
      match err with
      | Some e => Ret (Some e)
      | None =>
          err ← invoke (LPush key encItem);
          match err with
          | Some e => Ret (Some e)
          | None => Add_loop key val
          end
      end
  end.

(** [func (c *cartCacheImpl) Add(ctx, key string, val []CartItem) error] *)
Definition Add (c : cartCacheImpl) (key : string) (val : list CartItem)
  : Prog error :=
  err ← Add_loop key val;
  match err with
  | Some e => Ret (Some e)
  | None =>
      err ← invoke (Expire key (ttl c));
      match err with
      | Some e => Ret (Some e)
      | None => Ret None
      end
  end.

(** The [for i, v := range val] loop of [Get], writing [cart[i] = item]
    into the slice made before the loop.  On a decoding error the
    function returns [nil, err]. *)
Fixpoint Get_loop (i : nat) (val : list string) (cart : list CartItem)
  : list CartItem * error :=
  match val with
  | [] => (cart, None)
  | v :: val =>
      let '(item, err) := json_Unmarshal v in
      match err with
      | Some e => ([], Some e)
      | None => Get_loop (S i) val (<[i := item]> cart)
      end
  end.

(** [func (c *cartCacheImpl) Get(ctx, key string) ([]CartItem, error)] *)
Definition Get (c : cartCacheImpl) (key : string)
  : Prog (list CartItem * error) :=
  '(val, err) ← invoke (LRange key 0 (-1));
  if decide (err = Some redis_Nil) then
    Ret ([], Some errNotFound)
  else
    let cart := replicate (length val) CartItem_zero in
    Ret (Get_loop 0 val cart).

(** [func (c *cartCacheImpl) Remove(ctx, key string) (bool, error)] *)
Definition Remove (c : cartCacheImpl) (key : string) : Prog (bool * error) :=
  err ← invoke (Del key);
  match err with
  | Some e => Ret (false, Some e)
  | None => Ret (true, None)
  end.

End Cache.

(** ** go-redis in front of a Redis server

    The calls the component makes, answered as go-redis and Redis document
    them, by a server that holds only lists and never fails:
    - LPUSH inserts the value at the head of the list stored at the key,
      creating the list when the key does not exist; an existing
      time-to-live is kept;
    - EXPIRE sets the time-to-live of an existing key, in seconds, does
      nothing when the key does not exist, and deletes the key when the
      time-to-live is not positive; go-redis's [Expire] sends the duration
      in whole seconds ([formatSec]);
    - LRANGE returns the elements from [start] to [stop], both inclusive,
      negative offsets counting from the tail; a key that does not exist
      is an empty list: the reply is then an empty array, which
      [Result()] returns as an empty slice with a nil error ([redis.Nil]
      stands for a nil reply, which LRANGE does not send);
    - DEL removes the key, whether or not it exists.
    No time passes in this model: an entry carries the time-to-live, in
    seconds, it was last given. *)

Record entry : Type := mkEntry {
  elems : list string;
  expiry : option Z
}.

Definition time_Second : Duration := 1000000000.

(** go-redis's [formatSec]: a duration as the number of seconds sent to
    the server, one second for a positive duration shorter than that;
    Go's division of integers truncates. *)
Definition formatSec (dur : Duration) : Z :=
  if (0 <? dur) && (dur <? time_Second) then 1
  else Z.quot dur time_Second.

#[global] Instance entry_eq_dec : EqDecision entry.
Proof. solve_decision. Defined.

Definition lrange (l : list string) (start stop : Z) : list string :=
  let len := Z.of_nat (length l) in
  let start := if start <? 0 then len + start else start in
  let stop := if stop <? 0 then len + stop else stop in
  let start := if start <? 0 then 0 else start in
  if (stop <? start) || (len <=? start) then []
  else
    let stop := if len <=? stop then len - 1 else stop in
    take (Z.to_nat (stop - start + 1)) (drop (Z.to_nat start) l).

Definition lpush (key value : string) (s : gmap string entry)
  : gmap string entry :=
  match s !! key with
  | Some e => <[key := mkEntry (value :: elems e) (expiry e)]> s
  | None => <[key := mkEntry [value] None]> s
  end.

Definition expire (key : string) (d : Duration) (s : gmap string entry)
  : gmap string entry :=
  match s !! key with
  | Some e => if formatSec d <=? 0 then delete key s
              else <[key := mkEntry (elems e) (Some (formatSec d))]> s
  | None => s
  end.

Definition llist (key : string) (s : gmap string entry) : list string :=
  match s !! key with
  | Some e => elems e
  | None => []
  end.

Definition redis : handler (gmap string entry) :=
  fun c =>
    match c as c0 return gmap string entry -> reply c0 * gmap string entry with
    | NewClient _ => fun s => (tt, s)
    | Ping => fun s => (None, s)
    | LPush key value => fun s => (None, lpush key value s)
    | Expire key d => fun s => (None, expire key d s)
    | LRange key start stop => fun s => ((lrange (llist key s) start stop, None), s)
    | Del key => fun s => (None, delete key s)
    end.

(** A server that is lost after [n] more calls: from then on every command
    comes back with the error [e] and changes nothing. *)
Definition failed (e : GoError) (c : call) : reply c :=
  match c with
  | NewClient _ => tt
  | LRange _ _ _ => ([], Some e)
  | _ => Some e
  end.

Definition lossy (e : GoError) : handler (nat * gmap string entry) :=
  fun c ns =>
    match ns.1 with
    | O =>
        (failed e c, ns)
    | S n => let '(r, s) := redis c ns.2 in (r, (n, s))
    end.

(** ** encoding/json at type [CartItem]

    [json.Marshal] and [json.Unmarshal] as package encoding/json documents
    and implements them (Go 1.20, the version go.mod names), specialised
    to a struct with a string field [ProductID] and an int32 field
    [Quantity].  A Go string is a sequence of bytes: [string] here.  The
    package states the one lossy step: string values are coerced to valid
    UTF-8, invalid bytes being replaced by the Unicode replacement rune. *)

Definition byte (a : ascii) : Z := Z.of_N (N_of_ascii a).
Definition chr (z : Z) : ascii := ascii_of_N (Z.to_N z).

(** *** unicode/utf8 *)

Definition RuneError : Z := 0xFFFD.

(** The table [first] with [acceptRanges]: for a leading byte, the length
    of the sequence and the range of its second byte. *)
Definition utf8_first (s0 : Z) : option (nat * Z * Z) :=
  if (0xC2 <=? s0) && (s0 <=? 0xDF) then Some (2%nat, 0x80, 0xBF)
  else if s0 =? 0xE0 then Some (3%nat, 0xA0, 0xBF)
  else if (0xE1 <=? s0) && (s0 <=? 0xEC) then Some (3%nat, 0x80, 0xBF)
  else if s0 =? 0xED then Some (3%nat, 0x80, 0x9F)
  else if (0xEE <=? s0) && (s0 <=? 0xEF) then Some (3%nat, 0x80, 0xBF)
  else if s0 =? 0xF0 then Some (4%nat, 0x90, 0xBF)
  else if (0xF1 <=? s0) && (s0 <=? 0xF3) then Some (4%nat, 0x80, 0xBF)
  else if s0 =? 0xF4 then Some (4%nat, 0x80, 0x8F)
  else None.

Definition outside (lo hi b : Z) : bool := (b <? lo) || (hi <? b).

(** The rune of a well-formed sequence of two, three and four bytes. *)
Definition rune2 (s0 s1 : Z) : Z :=
  Z.lor (Z.shiftl (Z.land s0 0x1F) 6) (Z.land s1 0x3F).

Definition rune3 (s0 s1 s2 : Z) : Z :=
  Z.lor (Z.lor (Z.shiftl (Z.land s0 0x0F) 12) (Z.shiftl (Z.land s1 0x3F) 6))
        (Z.land s2 0x3F).

Definition rune4 (s0 s1 s2 s3 : Z) : Z :=
  Z.lor (Z.lor (Z.lor (Z.shiftl (Z.land s0 0x07) 18)
                      (Z.shiftl (Z.land s1 0x3F) 12))
               (Z.shiftl (Z.land s2 0x3F) 6))
        (Z.land s3 0x3F).

(** [utf8.DecodeRuneInString]: the rune, the bytes it took and what
    follows them; the size Go returns is the number of bytes taken.  An
    empty string gives [(RuneError, 0)], an ill-formed sequence
    [(RuneError, 1)]. *)
Definition utf8_decode (s : string) : Z * string * string :=
  match s with
  | EmptyString => (RuneError, EmptyString, EmptyString)
  | String a0 r0 =>
      let s0 := byte a0 in
      let bad := (RuneError, String a0 EmptyString, r0) in
      if s0 <? 0x80 then (s0, String a0 EmptyString, r0)
      else
        match utf8_first s0 with
        | None => bad
        | Some (sz, lo, hi) =>
            match r0 with
            | EmptyString => bad
            | String a1 r1 =>
                let s1 := byte a1 in
                if outside lo hi s1 then bad
                else if (sz <=? 2)%nat then
                  (rune2 s0 s1, String a0 (String a1 EmptyString), r1)
                else
                  match r1 with
                  | EmptyString => bad
                  | String a2 r2 =>
                      let s2 := byte a2 in
                      if outside 0x80 0xBF s2 then bad
                      else if (sz <=? 3)%nat then
                        (rune3 s0 s1 s2,
                         String a0 (String a1 (String a2 EmptyString)), r2)
                      else
                        match r2 with
                        | EmptyString => bad
                        | String a3 r3 =>
                            let s3 := byte a3 in
                            if outside 0x80 0xBF s3 then bad
                            else
                              (rune4 s0 s1 s2 s3,
                               String a0 (String a1 (String a2 (String a3 EmptyString))),
                               r3)
                        end
                  end
            end
        end
  end.

Definition utf8_DecodeRuneInString (s : string) : Z * nat :=
  let '(r, taken, _) := utf8_decode s in (r, String.length taken).

Definition encode3 (r : Z) : list Z :=
  [Z.lor 0xE0 (Z.shiftr r 12);
   Z.lor 0x80 (Z.land (Z.shiftr r 6) 0x3F);
   Z.lor 0x80 (Z.land r 0x3F)].

(** [utf8.AppendRune] on an empty slice: the bytes of a rune, those of
    [RuneError] for a value that is not a Unicode scalar value. *)
Definition utf8_AppendRune (r : Z) : list Z :=
  if (r <? 0) || (0x10FFFF <? r) || ((0xD800 <=? r) && (r <=? 0xDFFF)) then
    encode3 RuneError
  else if r <=? 0x7F then [r]
  else if r <=? 0x7FF then
    [Z.lor 0xC0 (Z.shiftr r 6); Z.lor 0x80 (Z.land r 0x3F)]
  else if r <=? 0xFFFF then encode3 r
  else
    [Z.lor 0xF0 (Z.shiftr r 18);
     Z.lor 0x80 (Z.land (Z.shiftr r 12) 0x3F);
     Z.lor 0x80 (Z.land (Z.shiftr r 6) 0x3F);
     Z.lor 0x80 (Z.land r 0x3F)].

Definition string_of_bytes (l : list Z) : string :=
  fold_right (fun z s => String (chr z) s) EmptyString l.

(** [utf8.EncodeRune], as the bytes written. *)
Definition utf8_EncodeRune (r : Z) : string :=
  string_of_bytes (utf8_AppendRune r).

(** [utf8.ValidString]. *)
Fixpoint utf8_Valid_from (n : nat) (s : string) : bool :=
  match n, s with
  | _, EmptyString => true
  | O, _ => true
  | S n, _ =>
      let '(r, taken, rest) := utf8_decode s in
      if (r =? RuneError) && (String.length taken =? 1)%nat then false
      else utf8_Valid_from n rest
  end.

Definition utf8_ValidString (s : string) : bool :=
  utf8_Valid_from (String.length s) s.

(** *** Writing a string (encodeState.string with escapeHTML set) *)

Definition dquote : ascii := "034"%char.
Definition backslash : ascii := "\"%char.

(** [hex[i]] for [hex = "0123456789abcdef"]. *)
Definition hex (i : Z) : ascii :=
  match String.get (Z.to_nat i) "0123456789abcdef" with
  | Some a => a
  | None => "0"%char
  end.

(** The table [htmlSafeSet]: the printable ASCII bytes and DEL, without
    the double quote, the backslash, and the characters <, > and &. *)
Definition htmlSafeSet (b : Z) : bool :=
  (0x20 <=? b) && (b <=? 0x7F)
  && negb (b =? 0x22) && negb (b =? 0x26) && negb (b =? 0x3C)
  && negb (b =? 0x3E) && negb (b =? 0x5C).

(** The escape written for an ASCII byte outside [htmlSafeSet]. *)
Definition escape_ascii (a : ascii) : string :=
  let b := byte a in
  String backslash
    (if (b =? 0x5C) || (b =? 0x22) then String a EmptyString
     else if b =? 0x0A then "n"
     else if b =? 0x0D then "r"
     else if b =? 0x09 then "t"
     else "u00" +:+ String (hex (Z.shiftr b 4))
                      (String (hex (Z.land b 0xF)) EmptyString)).

(** The loop of [encodeState.string]; [n] bounds the number of rounds,
    each of which takes at least one byte of [s]. *)
Fixpoint string_body (n : nat) (s : string) : string :=
  match n, s with
  | _, EmptyString => EmptyString
  | O, _ => EmptyString
  | S n, String a rest =>
      if byte a <? 0x80 then
        if htmlSafeSet (byte a) then String a (string_body n rest)
        else escape_ascii a +:+ string_body n rest
      else
        let '(c, taken, rest') := utf8_decode s in
        if (c =? RuneError) && (String.length taken =? 1)%nat then
          "\ufffd" +:+ string_body n rest'
        else if (c =? 0x2028) || (c =? 0x2029) then
          "\u202" +:+ String (hex (Z.land c 0xF)) (string_body n rest')
        else taken +:+ string_body n rest'
  end.

Definition encode_string (s : string) : string :=
  String dquote (string_body (String.length s) s +:+ String dquote EmptyString).

(** [strconv.FormatInt(i, 10)]. *)
Definition strconv_FormatInt (i : Z) : string :=
  NilZero.string_of_int (Z.to_int i).

(** [json.Marshal(item)]: the struct's fields in declaration order under
    their Go names.  Neither field type can fail to encode. *)
Definition Marshal (item : CartItem) : string * error :=
  ("{" +:+ String dquote "ProductID" +:+ String dquote ":"
       +:+ encode_string (ProductID item)
       +:+ "," +:+ String dquote "Quantity" +:+ String dquote ":"
       +:+ strconv_FormatInt (Quantity item) +:+ "}",
   None).

(** *** Reading a document

    [json.Unmarshal] first checks the whole input against the JSON grammar
    (the scanner) and only then stores values; an input that fails the
    check is a [SyntaxError] whatever it contains.  Here the input is read
    once into a [json] value, which succeeds exactly when the check does,
    with string literals already unquoted ([unquoteBytes]). *)

Inductive json : Type :=
  | JNull
  | JBool (b : bool)
  | JNumber (lit : string)
  | JString (s : string)
  | JArray (vs : list json)
  | JObject (members : list (string * json)).

(** [isSpace] of the scanner. *)
Definition isSpace (a : ascii) : bool :=
  let b := byte a in
  (b =? 0x20) || (b =? 0x09) || (b =? 0x0D) || (b =? 0x0A).

Fixpoint skip_space (s : string) : string :=
  match s with
  | String a r => if isSpace a then skip_space r else s
  | EmptyString => s
  end.

Definition hexval (a : ascii) : option Z :=
  let b := byte a in
  if (0x30 <=? b) && (b <=? 0x39) then Some (b - 0x30)
  else if (0x61 <=? b) && (b <=? 0x66) then Some (b - 0x61 + 10)
  else if (0x41 <=? b) && (b <=? 0x46) then Some (b - 0x41 + 10)
  else None.

(** [getu4]: the rune of a [\uXXXX] escape at the head of [s], and
    what follows the escape. *)
Definition getu4 (s : string) : option (Z * string) :=
  match s with
  | String b (String u (String h1 (String h2 (String h3 (String h4 r))))) =>
      if (byte b =? 0x5C) && (byte u =? 0x75) then
        match hexval h1, hexval h2, hexval h3, hexval h4 with
        | Some x1, Some x2, Some x3, Some x4 =>
            Some (((x1 * 16 + x2) * 16 + x3) * 16 + x4, r)
        | _, _, _, _ => None
        end
      else None
  | _ => None
  end.

(** [utf16.IsSurrogate] and [utf16.DecodeRune]. *)
Definition utf16_IsSurrogate (r : Z) : bool := (0xD800 <=? r) && (r <? 0xE000).

Definition utf16_DecodeRune (r1 r2 : Z) : Z :=
  if (0xD800 <=? r1) && (r1 <? 0xDC00) && (0xDC00 <=? r2) && (r2 <? 0xE000)
  then Z.lor (Z.shiftl (r1 - 0xD800) 10) (r2 - 0xDC00) + 0x10000
  else RuneError.

(** The byte a one-letter escape stands for. *)
Definition unescape (c : Z) : option ascii :=
  if (c =? 0x22) || (c =? 0x5C) || (c =? 0x2F) then Some (chr c)
  else if c =? 0x62 then Some (chr 0x08)
  else if c =? 0x66 then Some (chr 0x0C)
  else if c =? 0x6E then Some (chr 0x0A)
  else if c =? 0x72 then Some (chr 0x0D)
  else if c =? 0x74 then Some (chr 0x09)
  else None.

(** A string literal from just after its opening quote: the unquoted
    bytes and what follows the closing quote.  [None] where the scanner
    rejects the literal; [n] bounds the number of rounds. *)
Fixpoint string_lit (n : nat) (s : string) : option (string * string) :=
  match n, s with
  | O, _ => None
  | _, EmptyString => None
  | S n, String a r =>
      let b := byte a in
      if b =? 0x22 then Some (EmptyString, r)
      else if b =? 0x5C then
        match r with
        | EmptyString => None
        | String e r' =>
            if byte e =? 0x75 then
              match getu4 s with
              | None => None
              | Some (rr, r1) =>
                  let single (x : Z) :=
                    match string_lit n r1 with
                    | Some (t, rest) => Some (utf8_EncodeRune x +:+ t, rest)
                    | None => None
                    end in
                  if utf16_IsSurrogate rr then
                    match getu4 r1 with
                    | Some (rr1, r2) =>
                        let dec := utf16_DecodeRune rr rr1 in
                        if dec =? RuneError then single RuneError
                        else
                          match string_lit n r2 with
                          | Some (t, rest) => Some (utf8_EncodeRune dec +:+ t, rest)
                          | None => None
                          end
                    | None => single RuneError
                    end
                  else single rr
              end
            else
              match unescape (byte e) with
              | None => None
              | Some c =>
                  match string_lit n r' with
                  | Some (t, rest) => Some (String c t, rest)
                  | None => None
                  end
              end
        end
      else if b <? 0x20 then None
      else if b <? 0x80 then
        match string_lit n r with
        | Some (t, rest) => Some (String a t, rest)
        | None => None
        end
      else
        let '(rr, _, r1) := utf8_decode s in
        match string_lit n r1 with
        | Some (t, rest) => Some (utf8_EncodeRune rr +:+ t, rest)
        | None => None
        end
  end.

Definition isDigit (a : ascii) : bool := (0x30 <=? byte a) && (byte a <=? 0x39).

(** The longest run of digits at the head of [s]. *)
Fixpoint digits (s : string) : string * string :=
  match s with
  | String a r =>
      if isDigit a then let '(d, r') := digits r in (String a d, r')
      else (EmptyString, s)
  | EmptyString => (EmptyString, EmptyString)
  end.

(** A number literal: an optional minus sign, an integer part without a
    leading zero, an optional fraction, an optional exponent. *)
Definition number_lit (s : string) : option (string * string) :=
  let '(sign, s1) :=
    match s with
    | String a r => if byte a =? 0x2D then ("-"%string, r) else (EmptyString, s)
    | EmptyString => (EmptyString, s)
    end in
  let int_part :=
    match s1 with
    | String a r =>
        if byte a =? 0x30 then Some (String a EmptyString, r)
        else if isDigit a then let '(d, r') := digits r in Some (String a d, r')
        else None
    | EmptyString => None
    end in
  match int_part with
  | None => None
  | Some (i, s2) =>
      let frac_part :=
        match s2 with
        | String a r =>
            if byte a =? 0x2E then
              match digits r with
              | (EmptyString, _) => None
              | (d, r') => Some (String a d, r')
              end
            else Some (EmptyString, s2)
        | EmptyString => Some (EmptyString, s2)
        end in
      match frac_part with
      | None => None
      | Some (f, s3) =>
          let exp_part :=
            match s3 with
            | String a r =>
                if (byte a =? 0x65) || (byte a =? 0x45) then
                  let '(sg, r0) :=
                    match r with
                    | String c r' =>
                        if (byte c =? 0x2B) || (byte c =? 0x2D)
                        then (String c EmptyString, r') else (EmptyString, r)
                    | EmptyString => (EmptyString, r)
                    end in
                  match digits r0 with
                  | (EmptyString, _) => None
                  | (d, r') => Some (String a (sg +:+ d), r')
                  end
                else Some (EmptyString, s3)
            | EmptyString => Some (EmptyString, s3)
            end in
          match exp_part with
          | None => None
          | Some (e, s4) => Some (sign +:+ i +:+ f +:+ e, s4)
          end
      end
  end.

(** [s] without the prefix [p], when it has it. *)
Fixpoint strip (p s : string) : option string :=
  match p, s with
  | EmptyString, _ => Some s
  | String a p', String b s' => if Ascii.eqb a b then strip p' s' else None
  | _, _ => None
  end.

Definition maxNestingDepth : N := 10000.

(** A value, the members of an object from a key on, the elements of an
    array from a value on.  [n] bounds the number of calls that are open
    at a time: while a document is read each open call holds a byte of
    its own (a bracket, a comma, the first byte of a key or of a scalar),
    so the length of the input is enough.  [depth] counts the brackets
    open. *)
Fixpoint value (n : nat) (depth : N) (s : string) {struct n}
  : option (json * string) :=
  match n with
  | O => None
  | S n =>
      match skip_space s with
      | EmptyString => None
      | String a r =>
          let b := byte a in
          if b =? 0x7B then
            if (maxNestingDepth <=? depth)%N then None
            else
              match skip_space r with
              | EmptyString => None
              | String c r' =>
                  if byte c =? 0x7D then Some (JObject [], r')
                  else members n (depth + 1)%N (skip_space r) []
              end
          else if b =? 0x5B then
            if (maxNestingDepth <=? depth)%N then None
            else
              match skip_space r with
              | EmptyString => None
              | String c r' =>
                  if byte c =? 0x5D then Some (JArray [], r')
                  else elements n (depth + 1)%N r []
              end
          else if b =? 0x22 then
            match string_lit (String.length r) r with
            | Some (t, rest) => Some (JString t, rest)
            | None => None
            end
          else if (b =? 0x2D) || isDigit a then
            match number_lit (String a r) with
            | Some (lit, rest) => Some (JNumber lit, rest)
            | None => None
            end
          else
            match strip "true" (String a r), strip "false" (String a r),
                  strip "null" (String a r) with
            | Some rest, _, _ => Some (JBool true, rest)
            | _, Some rest, _ => Some (JBool false, rest)
            | _, _, Some rest => Some (JNull, rest)
            | _, _, _ => None
            end
      end
  end
with members (n : nat) (depth : N) (s : string) (acc : list (string * json))
  {struct n} : option (json * string) :=
  match n with
  | O => None
  | S n =>
      match s with
      | EmptyString => None
      | String q r =>
          if byte q =? 0x22 then
            match string_lit (String.length r) r with
            | None => None
            | Some (key, r1) =>
                match skip_space r1 with
                | EmptyString => None
                | String c r2 =>
                    if byte c =? 0x3A then
                      match value n depth r2 with
                      | None => None
                      | Some (v, r3) =>
                          match skip_space r3 with
                          | EmptyString => None
                          | String d r4 =>
                              if byte d =? 0x2C then
                                members n depth (skip_space r4) (acc ++ [(key, v)])
                              else if byte d =? 0x7D then
                                Some (JObject (acc ++ [(key, v)]), r4)
                              else None
                          end
                      end
                    else None
                end
            end
          else None
      end
  end
with elements (n : nat) (depth : N) (s : string) (acc : list json)
  {struct n} : option (json * string) :=
  match n with
  | O => None
  | S n =>
      match value n depth s with
      | None => None
      | Some (v, r1) =>
          match skip_space r1 with
          | EmptyString => None
          | String d r2 =>
              if byte d =? 0x2C then elements n depth r2 (acc ++ [v])
              else if byte d =? 0x5D then Some (JArray (acc ++ [v]), r2)
              else None
          end
      end
  end.

(** [checkValid] together with the reading of the value: one value, with
    nothing but space after it. *)
Definition parse (data : string) : option json :=
  match value (S (String.length data)) 0%N data with
  | Some (v, rest) =>
      match skip_space rest with
      | EmptyString => Some v
      | String _ _ => None
      end
  | None => None
  end.

(** [strconv.ParseInt(s, 10, 64)]; [None] is a syntax or range error. *)
Definition strconv_ParseInt (s : string) : option Z :=
  match s with
  | EmptyString => None
  | String a r =>
      let '(neg, ds) :=
        if byte a =? 0x2B then (false, r)
        else if byte a =? 0x2D then (true, r)
        else (false, s) in
      match ds with
      | EmptyString => None
      | String _ _ =>
          match NilEmpty.uint_of_string ds with
          | None => None
          | Some d =>
              let un := Z.of_uint d in
              if 2 ^ 64 <=? un then None
              else if negb neg && (2 ^ 63 <=? un) then None
              else if neg && (2 ^ 63 <? un) then None
              else Some (if neg then - un else un)
          end
      end
  end.

(** The values of Go's [int32] ([reflect.Value.OverflowInt] is its
    negation). *)
Definition int32 (n : Z) : bool := (- 2 ^ 31 <=? n) && (n <? 2 ^ 31).

Inductive field : Type := FProductID | FQuantity.

(** [simpleLetterEqualFold], the folding chosen for a field name made of
    ASCII letters other than K and S. *)
Fixpoint simpleLetterEqualFold (s t : string) : bool :=
  match s, t with
  | EmptyString, EmptyString => true
  | String a s', String b t' =>
      (Z.land (byte a) 0xDF =? Z.land (byte b) 0xDF) && simpleLetterEqualFold s' t'
  | _, _ => false
  end.

(** The field a key names: an exact match first, else the first field
    whose name equals the key under folding. *)
Definition find_field (key : string) : option field :=
  if String.eqb key "ProductID" then Some FProductID
  else if String.eqb key "Quantity" then Some FQuantity
  else if simpleLetterEqualFold "ProductID" key then Some FProductID
  else if simpleLetterEqualFold "Quantity" key then Some FQuantity
  else None.

(** [d.saveError]: the first error is the one reported. *)
Definition saveError (saved : error) : error :=
  match saved with
  | None => Some json_UnmarshalTypeError
  | Some e => Some e
  end.

(** Storing a value into a field; [null] leaves the field as it is, a
    value of the wrong kind is recorded as an [UnmarshalTypeError] and
    decoding goes on. *)
Definition store (f : field) (v : json) (st : CartItem * error)
  : CartItem * error :=
  let '(item, saved) := st in
  match v, f with
  | JNull, _ => st
  | JString s, FProductID => (mkCartItem s (Quantity item), saved)
  | JNumber lit, FQuantity =>
      match strconv_ParseInt lit with
      | Some n =>
          if int32 n then (mkCartItem (ProductID item) n, saved)
          else (item, saveError saved)
      | None => (item, saveError saved)
      end
  | _, _ => (item, saveError saved)
  end.

Definition store_member (st : CartItem * error) (m : string * json)
  : CartItem * error :=
  match find_field m.1 with
  | Some f => store f m.2 st
  | None => st
  end.

(** [json.Unmarshal(data, &item)] for a zero [item]: the item as left by
    the call, and the error. *)
Definition Unmarshal (data : string) : CartItem * error :=
  match parse data with
  | None => (CartItem_zero, Some json_SyntaxError)
  | Some JNull => (CartItem_zero, None)
  | Some (JObject ms) => fold_left store_member ms (CartItem_zero, None)
  | Some _ => (CartItem_zero, Some json_UnmarshalTypeError)
  end.

#[global] Instance encoding_json : Codec := {|
  json_Marshal := Marshal;
  json_Unmarshal := Unmarshal
|}.

(** ** Notions used in the statements *)

(** The [item] at which a call of [Add] stops, the server being in state
    [s1] when its turn comes: either it does not encode, and nothing is
    sent, or its [LPush] comes back with an error.  The indices are the
    error, the state of the server afterwards and the calls made for the
    item. *)
Inductive nth_fails {codec : Codec} {Σ : Type} (h : handler Σ)
    (key : string) (item : CartItem) (s1 : Σ)
  : GoError -> Σ -> list call -> Prop :=
  | nth_encode_fails enc e :
      json_Marshal item = (enc, Some e) ->
      nth_fails h key item s1 e s1 []
  | nth_append_fails enc e s2 :
      json_Marshal item = (enc, None) ->
      h (LPush key enc) s1 = (Some e, s2) ->
      nth_fails h key item s1 e s2 [LPush key enc].

(** A parser for the examples, which need some instance of
    [time.ParseDuration] to run: it reads a whole number of seconds,
    digits followed by the unit s, as [time.ParseDuration] does, and
    rejects every other string, which [time.ParseDuration] does not.  No
    statement below depends on it except through an instance. *)
Definition whole_seconds : DurationParser :=
  fun s =>
    match digits s with
    | (String a d, String u EmptyString) =>
        match NilEmpty.uint_of_string (String a d) with
        | Some n =>
            if Ascii.eqb u "s" then (Z.of_uint n * 1000000000, None)
            else (0, Some (lib_error "time: unknown unit in duration"))
        | None => (0, Some (lib_error "time: invalid duration"))
        end
    | _ => (0, Some (lib_error "time: invalid duration"))
    end.

(** The component as [Init] leaves it for the configuration with an empty
    cache_host and cache_ttl set to 30s, and a few items, for the
    examples. *)
Definition cache30 : cartCacheImpl :=
  mkImpl (mkConfig "" "30s") (Some {| opt_of := {| Addr := "" |} |})
    30000000000.

Definition mug : CartItem := mkCartItem "6E92ZMYYFZ" 2.
Definition watch : CartItem := mkCartItem "1YMWWN1N4O" 1.
Definition socks : CartItem := mkCartItem "L9ECAV7KIM" 3.

(** The items that are Go values and whose product id is valid UTF-8. *)
Definition CartItem_wf (item : CartItem) : Prop :=
  utf8_ValidString (ProductID item) = true /\ int32 (Quantity item) = true.

(** The state of the server after [LPush]ing the encodings of [val] under
    [key], one after the other. *)
Definition pushed (key : string) (val : list CartItem) (s : gmap string entry)
  : gmap string entry :=
  fold_left (fun s item => lpush key (Marshal item).1 s) val s.

(** The result of one round of [string_lit] that unquotes [piece]. *)
Definition push (piece : string) (o : option (string * string))
  : option (string * string) :=
  match o with
  | Some (t, rest) => Some (piece +:+ t, rest)
  | None => None
  end.

(** What a string becomes on its way through [json.Marshal] and back
    through [json.Unmarshal]: every byte that is not part of a well-formed
    UTF-8 sequence is replaced by the three bytes of U+FFFD, the rest is
    kept.  [n] bounds the number of rounds as in [string_body]. *)
Fixpoint utf8_coerce_from (n : nat) (s : string) : string :=
  match n, s with
  | _, EmptyString => EmptyString
  | O, _ => EmptyString
  | S n, _ =>
      let '(c, taken, rest) := utf8_decode s in
      if (c =? RuneError) && (String.length taken =? 1)%nat then
        utf8_EncodeRune RuneError +:+ utf8_coerce_from n rest
      else taken +:+ utf8_coerce_from n rest
  end.

Definition utf8_coerce (s : string) : string :=
  utf8_coerce_from (String.length s) s.

Definition CartItem_coerced (item : CartItem) : CartItem :=
  mkCartItem (utf8_coerce (ProductID item)) (Quantity item).

(** The calls that concern [key] and write to it as [Add] does. *)
Definition writes_to (key : string) (d : Duration) (c : call) : Prop :=
  (exists v, c = LPush key v) \/ c = Expire key d.

(** ** Running programs *)

Lemma run_bind {Σ A B : Type} (h : handler Σ) (p : Prog A) (f : A -> Prog B) s :
  run h (p ≫= f) s =
  let '(a, s1, tr1) := run h p s in
  let '(b, s2, tr2) := run h (f a) s1 in
  (b, s2, tr1 ++ tr2).
Proof.
  revert s. induction p as [a | c k IH]; intros s; simpl.
  - change (Ret a ≫= f) with (f a). by destruct (run h (f a) s) as [[b s2] tr2].
  - change (Call c k ≫= f) with (Call c (fun r => k r ≫= f)). simpl.
    destruct (h c s) as [r s1]. rewrite IH.
    destruct (run h (k r) s1) as [[a s2] tr1].
    by destruct (run h (f a) s2) as [[b s3] tr2].
Qed.

Section CacheFacts.
Context {parser : DurationParser} {codec : Codec}.
Context {Σ : Type} (h : handler Σ).

(** One round of the loop of [Add]. *)
Lemma run_Add_loop_cons key item val s :
  run h (Add_loop key (item :: val)) s =
  match json_Marshal item with
  | (_, Some e) => (Some e, s, [])
  | (enc, None) =>
      match h (LPush key enc) s with
      | (Some e, s1) => (Some e, s1, [LPush key enc])
      | (None, s1) =>
          let '(r, s2, tr) := run h (Add_loop key val) s1 in
          (r, s2, LPush key enc :: tr)
      end
  end.
Proof.
  cbn [Add_loop]. destruct (json_Marshal item) as [enc [e |]]; [done |].
  rewrite run_bind. unfold invoke. cbn [run].
  destruct (h (LPush key enc) s) as [[e |] s1]; simpl; [done |].
  by destruct (run h (Add_loop key val) s1) as [[r s2] tr].
Qed.

(** A loop of [Add] that runs to its end has pushed every item, in order,
    and nothing else. *)
Lemma Add_loop_done key val s s1 tr :
  run h (Add_loop key val) s = (None, s1, tr) ->
  tr = map (fun i => LPush key (json_Marshal i).1) val
  /\ Forall (fun i => (json_Marshal i).2 = None) val.
Proof.
  revert s tr. induction val as [| item val IH]; intros s tr.
  - intros [= <- <-]. by split.
  - rewrite run_Add_loop_cons.
    destruct (json_Marshal item) as [enc [e |]] eqn:Em; [done |].
    destruct (h (LPush key enc) s) as [[e |] s'] eqn:Eh; [done |].
    destruct (run h (Add_loop key val) s') as [[r s2] tr'] eqn:Er.
    intros [= -> -> <-]. destruct (IH _ _ Er) as [-> HF].
    split; [simpl; by rewrite Em |]. constructor; [by rewrite Em | done].
Qed.

(** The loop over a list that starts with items that all go through. *)
Lemma Add_loop_app key done val s s1 tr :
  run h (Add_loop key done) s = (None, s1, tr) ->
  run h (Add_loop key (done ++ val)) s =
  let '(r, s2, tr2) := run h (Add_loop key val) s1 in (r, s2, tr ++ tr2).
Proof.
  revert s tr. induction done as [| item done IH]; intros s tr.
  - intros [= <- <-]. simpl.
    by destruct (run h (Add_loop key val) s) as [[r s2] tr2].
  - rewrite <- app_comm_cons, !run_Add_loop_cons.
    destruct (json_Marshal item) as [enc [e |]] eqn:Em; [done |].
    destruct (h (LPush key enc) s) as [[e |] s'] eqn:Eh; [done |].
    destruct (run h (Add_loop key done) s') as [[r s2] tr'] eqn:Er.
    intros [= -> -> <-]. rewrite (IH _ _ Er).
    by destruct (run h (Add_loop key val) s1) as [[r s2] tr2].
Qed.

(** [Add] is its loop followed, when the loop runs to its end, by one
    [Expire]. *)
Lemma run_Add c key val s :
  run h (Add c key val) s =
  match run h (Add_loop key val) s with
  | (Some e, s1, tr) => (Some e, s1, tr)
  | (None, s1, tr) =>
      let '(r, s2) := h (Expire key (ttl c)) s1 in
      (r, s2, tr ++ [Expire key (ttl c)])
  end.
Proof.
  unfold Add. rewrite run_bind.
  destruct (run h (Add_loop key val) s) as [[[e |] s1] tr].
  - simpl. by rewrite app_nil_r.
  - rewrite run_bind. unfold invoke. cbn [run].
    by destruct (h (Expire key (ttl c)) s1) as [[e |] s2].
Qed.

End CacheFacts.

(** ** The loop of [Get] *)

(** When every element decodes, the loop fills the slice made for it from
    left to right: after [length done] rounds the slice is the items
    decoded so far followed by zero items. *)
Lemma Get_loop_decodes {codec : Codec} (val : list string) (done : list CartItem) :
  Forall (fun v => (json_Unmarshal v).2 = None) val ->
  Get_loop (length done) val (done ++ replicate (length val) CartItem_zero)
  = (done ++ map (fun v => (json_Unmarshal v).1) val, None).
Proof.
  revert done. induction val as [| v val IH]; intros done HF.
  - simpl. by rewrite !app_nil_r.
  - inversion HF as [| ? ? Hv HF']; subst. cbn [Get_loop].
    destruct (json_Unmarshal v) as [item err] eqn:Ev. simpl in Hv. subst err.
    cbn [length replicate map].
    rewrite insert_app_r_alt by lia. rewrite Nat.sub_diag. cbn [insert list_insert].
    specialize (IH (done ++ [item]) HF').
    rewrite length_app in IH. cbn [length] in IH. rewrite Nat.add_1_r in IH.
    rewrite <- !app_assoc in IH. rewrite Ev. exact IH.
Qed.

(** [Get] is one [LRange] followed by a computation on the reply. *)
Lemma run_Get {codec : Codec} {Σ : Type} (h : handler Σ) c key s :
  run h (Get c key) s =
  let '((val, err), s1) := h (LRange key 0 (-1)) s in
  (if decide (err = Some redis_Nil) then ([], Some errNotFound)
   else Get_loop 0 val (replicate (length val) CartItem_zero),
   s1, [LRange key 0 (-1)]).
Proof.
  unfold Get. rewrite run_bind. unfold invoke. cbn [run].
  destruct (h (LRange key 0 (-1)) s) as [[val err] s1]. simpl.
  by destruct (decide (err = Some redis_Nil)).
Qed.

(** ** encoding/json: bytes and runes *)

Lemma byte_range a : 0 <= byte a < 256.
Proof.
  unfold byte. pose proof (N_ascii_bounded a). lia.
Qed.

Lemma chr_byte a : chr (byte a) = a.
Proof. unfold chr, byte. rewrite N2Z.id. apply ascii_N_embedding. Qed.

(** Bit operations on bytes as arithmetic. *)
Lemma lor_shiftl_add a b n :
  0 <= n -> 0 <= b < 2 ^ n -> Z.lor (Z.shiftl a n) b = a * 2 ^ n + b.
Proof.
  intros Hn Hb. rewrite <- Z.shiftl_mul_pow2 by done.
  assert (Hand : Z.land (Z.shiftl a n) b = 0).
  { apply Z.bits_inj'. intros i Hi. rewrite Z.land_spec, Z.bits_0.
    destruct (Z.lt_ge_cases i n) as [Hlt | Hge].
    - by rewrite Z.shiftl_spec_low.
    - rewrite <- (Z.mod_small b (2 ^ n)) by done.
      rewrite Z.mod_pow2_bits_high by lia. apply andb_false_r. }
  rewrite <- Z.lxor_lor by done. symmetry. by apply Z.add_nocarry_lxor.
Qed.

Lemma land_low z n : 0 <= n -> Z.land z (Z.ones n) = z mod 2 ^ n.
Proof. apply Z.land_ones. Qed.

Lemma rune2_arith s0 s1 :
  rune2 s0 s1 = (s0 mod 32) * 64 + s1 mod 64.
Proof.
  unfold rune2. change 0x1F with (Z.ones 5). change 0x3F with (Z.ones 6).
  rewrite !land_low by done. rewrite lor_shiftl_add; [done | done |].
  apply Z.mod_pos_bound. done.
Qed.

Lemma rune3_arith s0 s1 s2 :
  rune3 s0 s1 s2 = ((s0 mod 16) * 64 + s1 mod 64) * 64 + s2 mod 64.
Proof.
  unfold rune3. change 0x0F with (Z.ones 4). change 0x3F with (Z.ones 6).
  rewrite !land_low by done.
  change 12 with (6 + 6). rewrite <- Z.shiftl_shiftl by done.
  rewrite <- Z.shiftl_lor.
  rewrite (lor_shiftl_add (s0 mod 2 ^ 4)); [| done | by apply Z.mod_pos_bound].
  rewrite lor_shiftl_add; [done | done | by apply Z.mod_pos_bound].
Qed.

Lemma rune4_arith s0 s1 s2 s3 :
  rune4 s0 s1 s2 s3
  = (((s0 mod 8) * 64 + s1 mod 64) * 64 + s2 mod 64) * 64 + s3 mod 64.
Proof.
  unfold rune4. change 0x07 with (Z.ones 3). change 0x3F with (Z.ones 6).
  rewrite !land_low by done.
  change 18 with (6 + 12). rewrite <- Z.shiftl_shiftl by done.
  rewrite <- Z.shiftl_lor.
  rewrite (lor_shiftl_add (s0 mod 2 ^ 3)); [| done | by apply Z.mod_pos_bound].
  change 12 with (6 + 6). rewrite <- Z.shiftl_shiftl by done.
  rewrite <- Z.shiftl_lor.
  rewrite (lor_shiftl_add (_ + _)); [| done | by apply Z.mod_pos_bound].
  rewrite lor_shiftl_add; [done | done | by apply Z.mod_pos_bound].
Qed.

Lemma lor_tag tag k n x :
  0 <= n -> tag = Z.shiftl k n -> 0 <= x < 2 ^ n -> Z.lor tag x = tag + x.
Proof.
  intros Hn -> Hx. rewrite lor_shiftl_add by done.
  by rewrite Z.shiftl_mul_pow2.
Qed.

Lemma cont_byte (x : Z) : 0 <= x < 64 -> Z.lor 0x80 x = 0x80 + x.
Proof. intros Hx. by apply (lor_tag 0x80 2 6). Qed.

Lemma AppendRune2 s0 s1 :
  0xC2 <= s0 <= 0xDF -> 0x80 <= s1 <= 0xBF ->
  utf8_AppendRune (rune2 s0 s1) = [s0; s1].
Proof.
  intros H0 H1. rewrite rune2_arith. unfold utf8_AppendRune.
  set (r := _ + _). 
  assert (Hr : r = (s0 - 0xC0) * 64 + (s1 - 0x80))
    by (unfold r; Z.div_mod_to_equations; lia).
  assert (0x80 <= r <= 0x7FF) by lia.
  repeat match goal with
  | |- context [?a <? ?b] => destruct (Z.ltb_spec a b); try lia
  | |- context [?a <=? ?b] => destruct (Z.leb_spec a b); try lia
  end. simpl.
  change 0x3F with (Z.ones 6). rewrite land_low, Z.shiftr_div_pow2 by done.
  rewrite (lor_tag 0xC0 6 5), cont_byte; try done.
  - f_equal; [| f_equal]; Z.div_mod_to_equations; lia.
  - apply Z.mod_pos_bound. done.
  - Z.div_mod_to_equations; lia.
Qed.

Ltac cmp :=
  repeat match goal with
  | |- context [?a <? ?b] => destruct (Z.ltb_spec a b); try lia
  | |- context [?a <=? ?b] => destruct (Z.leb_spec a b); try lia
  | |- context [?a =? ?b] => destruct (Z.eqb_spec a b); try lia
  end.

Ltac cmp_in H :=
  repeat match type of H with
  | context [?a <? ?b] => destruct (Z.ltb_spec a b); try lia
  | context [?a <=? ?b] => destruct (Z.leb_spec a b); try lia
  | context [?a =? ?b] => destruct (Z.eqb_spec a b); try lia
  end.

Lemma outside_false lo hi b : outside lo hi b = false <-> lo <= b <= hi.
Proof. unfold outside. cmp; simpl; split; try done; lia. Qed.

Lemma utf8_first_spec s0 sz lo hi :
  utf8_first s0 = Some (sz, lo, hi) ->
  0x80 <= lo /\ hi <= 0xBF /\
  ((sz = 2%nat /\ 0xC2 <= s0 <= 0xDF)
   \/ (sz = 3%nat /\ 0xE0 <= s0 <= 0xEF
       /\ (s0 = 0xE0 -> lo = 0xA0) /\ (s0 = 0xED -> hi = 0x9F))
   \/ (sz = 4%nat /\ 0xF0 <= s0 <= 0xF4
       /\ (s0 = 0xF0 -> lo = 0x90) /\ (s0 = 0xF4 -> hi = 0x8F))).
Proof.
  unfold utf8_first. intros H. cmp_in H; simpl in H; inversion H; subst; lia.
Qed.

Ltac bytes_eq :=
  change 0x3F with (Z.ones 6);
  rewrite ?land_low, ?Z.shiftr_div_pow2 by done;
  rewrite ?cont_byte by (apply Z.mod_pos_bound; done);
  repeat (f_equal; try (Z.div_mod_to_equations; lia)).

Lemma AppendRune3 s0 s1 s2 :
  0xE0 <= s0 <= 0xEF -> 0x80 <= s1 <= 0xBF -> 0x80 <= s2 <= 0xBF ->
  (s0 = 0xE0 -> 0xA0 <= s1) -> (s0 = 0xED -> s1 <= 0x9F) ->
  utf8_AppendRune (rune3 s0 s1 s2) = [s0; s1; s2].
Proof.
  intros H0 H1 H2 Hlo Hhi. rewrite rune3_arith. unfold utf8_AppendRune, encode3.
  set (r := _ + _).
  assert (Hr : r = ((s0 - 0xE0) * 64 + (s1 - 0x80)) * 64 + (s2 - 0x80))
    by (unfold r; Z.div_mod_to_equations; lia).
  assert (0x800 <= r <= 0xFFFF) by lia.
  assert (~ 0xD800 <= r <= 0xDFFF) by lia.
  assert (Htag : Z.lor 0xE0 (Z.shiftr r 12) = 0xE0 + r / 2 ^ 12).
  { rewrite (lor_tag 0xE0 14 4), Z.shiftr_div_pow2; try done.
    rewrite Z.shiftr_div_pow2 by done. Z.div_mod_to_equations; lia. }
  cmp; simpl; rewrite Htag; bytes_eq.
Qed.

Lemma AppendRune4 s0 s1 s2 s3 :
  0xF0 <= s0 <= 0xF4 -> 0x80 <= s1 <= 0xBF -> 0x80 <= s2 <= 0xBF ->
  0x80 <= s3 <= 0xBF ->
  (s0 = 0xF0 -> 0x90 <= s1) -> (s0 = 0xF4 -> s1 <= 0x8F) ->
  utf8_AppendRune (rune4 s0 s1 s2 s3) = [s0; s1; s2; s3].
Proof.
  intros H0 H1 H2 H3 Hlo Hhi. rewrite rune4_arith. unfold utf8_AppendRune.
  set (r := _ + _).
  assert (Hr : r = (((s0 - 0xF0) * 64 + (s1 - 0x80)) * 64 + (s2 - 0x80)) * 64
                   + (s3 - 0x80))
    by (unfold r; Z.div_mod_to_equations; lia).
  assert (0x10000 <= r <= 0x10FFFF) by lia.
  assert (Htag : Z.lor 0xF0 (Z.shiftr r 18) = 0xF0 + r / 2 ^ 18).
  { rewrite (lor_tag 0xF0 30 3), Z.shiftr_div_pow2; try done.
    rewrite Z.shiftr_div_pow2 by done. Z.div_mod_to_equations; lia. }
  cmp; simpl; rewrite Htag; bytes_eq.
Qed.

Lemma utf8_EncodeRune_ascii a : byte a < 0x80 -> utf8_EncodeRune (byte a) = String a EmptyString.
Proof.
  intros Ha. pose proof (byte_range a). unfold utf8_EncodeRune, utf8_AppendRune.
  cmp; simpl; by rewrite chr_byte.
Qed.

(** What [utf8_decode] returns when it does not report an ill-formed
    sequence: the bytes taken are a prefix of the input, they are the
    encoding of the rune, and they decode alike before any other tail. *)
Lemma utf8_decode_wellformed a0 r0 r taken rest :
  utf8_decode (String a0 r0) = (r, taken, rest) ->
  (r =? RuneError) && (String.length taken =? 1)%nat = false ->
  String a0 r0 = taken +:+ rest
  /\ (exists t', taken = String a0 t')
  /\ utf8_EncodeRune r = taken
  /\ (forall rest', utf8_decode (taken +:+ rest') = (r, taken, rest'))
  /\ (String.length rest < String.length (String a0 r0))%nat.
Proof.
  unfold utf8_decode.
  destruct (byte a0 <? 0x80) eqn:E0.
  { intros [= <- <- <-] _. split; [done |]. split; [by eexists |].
    split; [apply utf8_EncodeRune_ascii; lia |]. split; [| simpl; lia].
    intros rest'. simpl. by rewrite E0. }
  destruct (utf8_first (byte a0)) as [[[sz lo] hi] |] eqn:Ef;
    [| intros [= <- <- <-] Hb; by cbv in Hb].
  destruct (utf8_first_spec _ _ _ _ Ef) as (Hlo & Hhi & Hsz).
  destruct r0 as [| a1 r1]; [intros [= <- <- <-] Hb; by cbv in Hb |].
  destruct (outside lo hi (byte a1)) eqn:E1; [intros [= <- <- <-] Hb; by cbv in Hb |].
  apply outside_false in E1 as H1.
  destruct (sz <=? 2)%nat eqn:Es2.
  { destruct Hsz as [[-> H0] | [[-> _] | [-> _]]]; try done.
    intros [= <- <- <-] _. split; [done |]. split; [by eexists |].
    split.
    - unfold utf8_EncodeRune. rewrite AppendRune2 by lia. simpl.
      by rewrite !chr_byte.
    - split; [| simpl; lia]. intros rest'. simpl.
      rewrite E0, Ef. apply outside_false in H1. by rewrite H1. }
  destruct r1 as [| a2 r2]; [intros [= <- <- <-] Hb; by cbv in Hb |].
  destruct (outside 0x80 0xBF (byte a2)) eqn:E2;
    [intros [= <- <- <-] Hb; by cbv in Hb |].
  apply outside_false in E2 as H2.
  destruct (sz <=? 3)%nat eqn:Es3.
  { destruct Hsz as [[-> H0] | [(-> & H0 & Ha & Hb) | [-> _]]]; try done.
    intros [= <- <- <-] _. split; [done |]. split; [by eexists |].
    split.
    - unfold utf8_EncodeRune. rewrite AppendRune3 by lia. simpl.
      by rewrite !chr_byte.
    - split; [| simpl; lia]. intros rest'. simpl.
      by rewrite E0, Ef, E1, E2. }
  destruct r2 as [| a3 r3]; [intros [= <- <- <-] Hb; by cbv in Hb |].
  destruct (outside 0x80 0xBF (byte a3)) eqn:E3;
    [intros [= <- <- <-] Hb; by cbv in Hb |].
  apply outside_false in E3 as H3.
  destruct Hsz as [[-> H0] | [(-> & H0 & Ha & Hb) | (-> & H0 & Ha & Hb)]]; try done.
  intros [= <- <- <-] _. split; [done |]. split; [by eexists |].
  split.
  - unfold utf8_EncodeRune. rewrite AppendRune4 by lia. simpl.
    by rewrite !chr_byte.
  - split; [| simpl; lia]. intros rest'. simpl.
    by rewrite E0, Ef, E1, E2, E3.
Qed.

(** ** Strings: a literal written by [encode_string] reads back *)

Lemma append_nil (s : string) : EmptyString +:+ s = s.
Proof. reflexivity. Qed.

Lemma append_cons a (s1 s2 : string) : String a s1 +:+ s2 = String a (s1 +:+ s2).
Proof. reflexivity. Qed.

Lemma append_assoc (s1 s2 s3 : string) : (s1 +:+ s2) +:+ s3 = s1 +:+ (s2 +:+ s3).
Proof.
  induction s1 as [| a s1 IH]; [done |]. rewrite !append_cons. by rewrite IH.
Qed.

Lemma length_append (s1 s2 : string) :
  String.length (s1 +:+ s2) = (String.length s1 + String.length s2)%nat.
Proof.
  induction s1 as [| a s1 IH]; [done |]. rewrite append_cons. simpl. by rewrite IH.
Qed.

Lemma string_lit_safe a n rest :
  byte a < 0x80 -> htmlSafeSet (byte a) = true ->
  string_lit (S n) (String a rest) = push (String a EmptyString) (string_lit n rest).
Proof.
  intros Ha Hs. unfold htmlSafeSet in Hs. cbn [string_lit].
  cmp_in Hs; try discriminate Hs. cmp.
  by destruct (string_lit n rest) as [[t r] |].
Qed.

Lemma string_lit_escape a n rest :
  (byte a <? 0x80) = true -> htmlSafeSet (byte a) = false ->
  string_lit (S n) (escape_ascii a +:+ rest)
  = push (String a EmptyString) (string_lit n rest).
Proof.
  destruct a as [[|] [|] [|] [|] [|] [|] [|] [|]]; intros H1 H2;
    try (vm_compute in H1; discriminate H1);
    try (vm_compute in H2; discriminate H2);
    reflexivity.
Qed.

Lemma string_lit_rune a0 t' X c n :
  0x80 <= byte a0 ->
  utf8_decode (String a0 t' +:+ X) = (c, String a0 t', X) ->
  string_lit (S n) (String a0 t' +:+ X) = push (utf8_EncodeRune c) (string_lit n X).
Proof.
  intros Ha Hd. rewrite append_cons in *. cbn [string_lit]. cmp.
  rewrite Hd. by destruct (string_lit n X) as [[t r] |].
Qed.

Lemma string_lit_u202x c n X :
  c = 0x2028 \/ c = 0x2029 ->
  string_lit (S n) ("\u202" +:+ String (hex (Z.land c 0xF)) X)
  = push (utf8_EncodeRune c) (string_lit n X).
Proof. intros [-> | ->]; reflexivity. Qed.

Lemma string_lit_string_body m :
  forall s n rest,
    (String.length s <= m)%nat ->
    utf8_Valid_from m s = true ->
    (String.length (string_body m s) < n)%nat ->
    string_lit n (string_body m s +:+ String dquote rest) = Some (s, rest).
Proof.
  induction m as [| m IH]; intros s n rest Hlen Hv Hn.
  { destruct s; [| simpl in Hlen; lia]. destruct n; [simpl in Hn; lia |].
    reflexivity. }
  destruct s as [| a r].
  { destruct n; [simpl in Hn; lia |]. reflexivity. }
  cbn [string_body] in *. cbn [utf8_Valid_from] in Hv.
  destruct (byte a <? 0x80) eqn:Ea.
  - (* one ASCII byte *)
    assert (Hd : utf8_decode (String a r) = (byte a, String a EmptyString, r))
      by (unfold utf8_decode; by rewrite Ea).
    rewrite Hd in Hv.
    assert (Hv' : utf8_Valid_from m r = true).
    { destruct ((byte a =? RuneError) && _); [done | exact Hv]. }
    simpl in Hlen.
    destruct (htmlSafeSet (byte a)) eqn:Es.
    + destruct n as [| n]; [simpl in Hn; lia |]. simpl in Hn.
      rewrite append_cons, string_lit_safe by (done || lia).
      rewrite IH by (done || lia). done.
    + rewrite length_append in Hn.
      assert (1 <= String.length (escape_ascii a))%nat by (simpl; lia).
      destruct n as [| n]; [lia |].
      rewrite append_assoc, string_lit_escape by done.
      rewrite IH by (done || lia). done.
  - (* a sequence of several bytes *)
    destruct (utf8_decode (String a r)) as [[c taken] r'] eqn:Hd.
    destruct ((c =? RuneError) && (String.length taken =? 1)%nat) eqn:Hbad;
      [done |].
    destruct (utf8_decode_wellformed _ _ _ _ _ Hd Hbad)
      as (Hs & [t' ->] & Henc & Hdec & Hshort).
    simpl in Hlen, Hshort.
    destruct ((c =? 0x2028) || (c =? 0x2029)) eqn:Hc.
    + rewrite length_append in Hn. simpl in Hn.
      rewrite append_assoc, (append_cons (hex _)).
      destruct n as [| n]; [lia |].
      rewrite string_lit_u202x by (cmp_in Hc; auto; discriminate).
      rewrite IH by (done || lia). simpl. by rewrite Henc, Hs.
    + rewrite append_assoc. rewrite length_append in Hn. simpl in Hn.
      destruct n as [| n]; [lia |].
      rewrite (string_lit_rune _ _ _ c); [| lia | apply Hdec].
      rewrite IH by (done || lia). simpl. by rewrite Henc, Hs.
Qed.

Lemma string_lit_encode s rest :
  utf8_ValidString s = true ->
  string_lit (String.length (string_body (String.length s) s +:+ String dquote rest))
             (string_body (String.length s) s +:+ String dquote rest)
  = Some (s, rest).
Proof.
  intros Hv. apply string_lit_string_body; [done | exact Hv |].
  rewrite length_append. simpl. lia.
Qed.

(** ** Numbers: what [strconv_FormatInt] writes reads back *)

Lemma append_nil_r (s : string) : s +:+ EmptyString = s.
Proof. induction s as [| a s IH]; [done |]. by rewrite append_cons, IH. Qed.

Lemma digits_uint d c rest :
  isDigit c = false ->
  digits (NilEmpty.string_of_uint d +:+ String c rest)
  = (NilEmpty.string_of_uint d, String c rest).
Proof.
  intros Hc. induction d as [| d IH | d IH | d IH | d IH | d IH | d IH | d IH
                             | d IH | d IH | d IH];
    cbn [NilEmpty.string_of_uint]; rewrite ?append_cons, ?append_nil;
    cbn [digits]; [by rewrite Hc | ..];
    change (isDigit _) with true; cbn iota; by rewrite IH.
Qed.

Lemma nzhead_not_D0 d d' : Decimal.nzhead d <> Decimal.D0 d'.
Proof. induction d; simpl; congruence. Qed.

(** The digits of a positive number do not start with a zero. *)
Lemma to_uint_head p :
  Pos.to_uint p <> Decimal.Nil /\ forall d', Pos.to_uint p <> Decimal.D0 d'.
Proof.
  split; [apply DecimalPos.Unsigned.to_uint_nonnil |]. intros d' Hd.
  pose proof (DecimalPos.Unsigned.to_of (Pos.to_uint p)) as Hn.
  rewrite DecimalPos.Unsigned.of_to in Hn. simpl in Hn. rewrite Hd in Hn.
  unfold Decimal.unorm in Hn. simpl in Hn.
  destruct (Decimal.nzhead d') eqn:Ez; try (by inversion Hn).
  - inversion Hn; subst. by apply (DecimalPos.Unsigned.to_uint_nonzero p).
  - eapply nzhead_not_D0. eassumption.
Qed.

Lemma string_of_uint_head d :
  d <> Decimal.Nil -> (forall d', d <> Decimal.D0 d') ->
  exists a r, NilEmpty.string_of_uint d = String a r
    /\ isDigit a = true /\ (byte a =? 0x30) = false
    /\ (byte a =? 0x2B) = false /\ (byte a =? 0x2D) = false.
Proof.
  intros Hnil H0. destruct d; try done; try (by destruct (H0 d));
    cbn [NilEmpty.string_of_uint]; by eexists _, _.
Qed.

Lemma number_lit_uint p c rest :
  isDigit c = false ->
  (byte c =? 0x2E) || (byte c =? 0x65) || (byte c =? 0x45) = false ->
  number_lit (NilEmpty.string_of_uint (Pos.to_uint p) +:+ String c rest)
  = Some (NilEmpty.string_of_uint (Pos.to_uint p), String c rest)
  /\ number_lit (String "-" (NilEmpty.string_of_uint (Pos.to_uint p) +:+ String c rest))
     = Some (String "-" (NilEmpty.string_of_uint (Pos.to_uint p)), String c rest).
Proof.
  intros Hd Hc. apply orb_false_elim in Hc as [Hc HE].
  apply orb_false_elim in Hc as [Hdot He].
  destruct (to_uint_head p) as [Hnil H0].
  destruct (string_of_uint_head _ Hnil H0) as (a & r & Hs & Ha & Hz & Hp & Hm).
  pose proof (digits_uint (Pos.to_uint p) c rest Hd) as Hdig.
  rewrite Hs in *. rewrite append_cons in *. cbn [digits] in Hdig.
  rewrite Ha in Hdig. destruct (digits (r +:+ String c rest)) as [d' r'] eqn:Er.
  injection Hdig as -> ->.
  split; unfold number_lit.
  - rewrite Hm, Hz, Ha, Er, Hdot. cbn iota. rewrite He, HE. cbn [orb].
    by rewrite ?append_nil, ?append_nil_r.
  - change (byte "-" =? 0x2D) with true. cbn iota.
    rewrite Hz, Ha, Er, Hdot. cbn iota. rewrite He, HE. cbn [orb].
    by rewrite ?append_nil, ?append_cons, ?append_nil_r.
Qed.

Lemma string_of_uint_nonnil d :
  d <> Decimal.Nil -> NilZero.string_of_uint d = NilEmpty.string_of_uint d.
Proof. by destruct d. Qed.

Lemma number_lit_FormatInt z c rest :
  isDigit c = false ->
  (byte c =? 0x2E) || (byte c =? 0x65) || (byte c =? 0x45) = false ->
  number_lit (strconv_FormatInt z +:+ String c rest)
  = Some (strconv_FormatInt z, String c rest).
Proof.
  intros Hd Hc. unfold strconv_FormatInt.
  destruct z as [| p | p]; cbn [Z.to_int NilZero.string_of_int].
  - apply orb_false_elim in Hc as [Hc HE].
    apply orb_false_elim in Hc as [Hdot He].
    change (NilZero.string_of_uint Decimal.zero) with "0"%string.
    rewrite append_cons, append_nil. unfold number_lit.
    change (byte "0" =? 0x2D) with false. cbn iota.
    change (byte "0" =? 0x30) with true. cbn iota.
    rewrite Hdot. cbn iota. by rewrite He, HE.
  - rewrite string_of_uint_nonnil by apply to_uint_head.
    by apply number_lit_uint.
  - rewrite string_of_uint_nonnil by apply to_uint_head.
    rewrite append_cons. by apply number_lit_uint.
Qed.

Lemma ParseInt_FormatInt z :
  - 2 ^ 63 <= z < 2 ^ 63 -> strconv_ParseInt (strconv_FormatInt z) = Some z.
Proof.
  intros Hz. unfold strconv_FormatInt.
  destruct z as [| p | p]; cbn [Z.to_int NilZero.string_of_int].
  - reflexivity.
  - rewrite string_of_uint_nonnil by apply to_uint_head.
    destruct (to_uint_head p) as [Hnil H0].
    destruct (string_of_uint_head _ Hnil H0) as (a & r & Hs & Ha & H30 & Hp & Hm).
    pose proof (NilEmpty.usu (Pos.to_uint p)) as Hu. rewrite Hs in *.
    unfold strconv_ParseInt. rewrite Hp, Hm, Hu.
    unfold Z.of_uint. rewrite DecimalPos.Unsigned.of_to.
    change (Z.of_N (N.pos p)) with (Z.pos p). cbn [negb andb].
    cmp. done.
  - rewrite string_of_uint_nonnil by apply to_uint_head.
    destruct (to_uint_head p) as [Hnil H0].
    destruct (string_of_uint_head _ Hnil H0) as (a & r & Hs & Ha & H30 & Hp & Hm).
    pose proof (NilEmpty.usu (Pos.to_uint p)) as Hu. rewrite Hs in *.
    unfold strconv_ParseInt. change (byte "-" =? 0x2B) with false.
    change (byte "-" =? 0x2D) with true. cbn iota. rewrite Hu.
    unfold Z.of_uint. rewrite DecimalPos.Unsigned.of_to.
    change (Z.of_N (N.pos p)) with (Z.pos p). cbn [negb andb].
    cmp. done.
Qed.

(** ** A marshalled item unmarshals to itself *)

Lemma FormatInt_head z :
  exists a r, strconv_FormatInt z = String a r
    /\ (byte a =? 0x2D) || isDigit a = true.
Proof.
  unfold strconv_FormatInt.
  destruct z as [| p | p]; cbn [Z.to_int NilZero.string_of_int].
  - by eexists _, _.
  - rewrite string_of_uint_nonnil by apply to_uint_head.
    destruct (to_uint_head p) as [Hnil H0].
    destruct (string_of_uint_head _ Hnil H0) as (a & r & Hs & Ha & _).
    exists a, r. rewrite Ha. split; [done | apply orb_true_r].
  - by eexists _, _.
Qed.

Lemma value_number n d z c rest :
  isDigit c = false ->
  (byte c =? 0x2E) || (byte c =? 0x65) || (byte c =? 0x45) = false ->
  value (S n) d (strconv_FormatInt z +:+ String c rest)
  = Some (JNumber (strconv_FormatInt z), String c rest).
Proof.
  intros Hd Hc. pose proof (number_lit_FormatInt z c rest Hd Hc) as Hn.
  destruct (FormatInt_head z) as (a & r & Hs & Ha). rewrite Hs in *.
  rewrite append_cons in *. cbn [value skip_space].
  assert (Hsp : isSpace a = false /\ (byte a =? 0x7B) = false
                /\ (byte a =? 0x5B) = false /\ (byte a =? 0x22) = false).
  { unfold isSpace, isDigit in *. cmp_in Ha; try discriminate Ha; cmp; done. }
  destruct Hsp as (-> & -> & -> & ->). by rewrite Ha, Hn.
Qed.

Lemma value_string n d X :
  value (S n) d (String dquote X) =
  match string_lit (String.length X) X with
  | Some (t, rest) => Some (JString t, rest)
  | None => None
  end.
Proof. reflexivity. Qed.

Lemma members_colon n d X key r acc :
  string_lit (String.length X) X = Some (key, String ":" r) ->
  members (S n) d (String dquote X) acc =
  match value n d r with
  | None => None
  | Some (v, r3) =>
      match skip_space r3 with
      | EmptyString => None
      | String c r4 =>
          if byte c =? 0x2C then members n d (skip_space r4) (acc ++ [(key, v)])
          else if byte c =? 0x7D then Some (JObject (acc ++ [(key, v)]), r4)
          else None
      end
  end.
Proof. intros H. cbn [members]. change (byte dquote =? 0x22) with true. cbn iota. by rewrite H. Qed.

Lemma Unmarshal_Marshal item :
  utf8_ValidString (ProductID item) = true ->
  int32 (Quantity item) = true ->
  Unmarshal (Marshal item).1 = (item, None).
Proof.
  destruct item as [pid q]. cbn [ProductID Quantity fst Marshal]. intros Hv Hq.
  unfold Unmarshal, parse, encode_string.
  rewrite !append_cons, !append_nil, append_assoc, !append_cons, !append_nil.
  cbn [String.length].
  match goal with |- context [String.length ?s] => generalize (String.length s) end.
  intros n.
  change (value (S (S ?k)) 0%N (String "{" ?r)) with (members (S k) 1%N r []).
  erewrite members_colon by reflexivity.
  rewrite value_string, string_lit_encode by done.
  change (skip_space (String "," ?r)) with (String "," r). cbn iota.
  change (byte "," =? 0x2C) with true. cbn iota.
  change (skip_space (String dquote ?r)) with (String dquote r).
  erewrite members_colon by reflexivity.
  rewrite value_number by reflexivity.
  change (skip_space (String "}" ?r)) with (String "}" r). cbn iota.
  change (byte "}" =? 0x2C) with false. change (byte "}" =? 0x7D) with true.
  cbn iota. cbn [skip_space app fold_left].
  unfold store_member. cbn [fst snd].
  change (find_field "ProductID") with (Some FProductID).
  change (find_field "Quantity") with (Some FQuantity).
  cbn [store Quantity ProductID CartItem_zero].
  rewrite ParseInt_FormatInt; [by rewrite Hq |].
  unfold int32 in Hq. cmp_in Hq; discriminate Hq.
Qed.

(** ** The cache on a Redis server *)

Lemma lrange_all (l : list string) : lrange l 0 (-1) = l.
Proof.
  unfold lrange. cbv zeta. change (0 <? 0) with false. change (-1 <? 0) with true.
  cbn iota. change (0 <? 0) with false. cbn iota.
  destruct l as [| x l]; [reflexivity |].
  set (len := Z.of_nat (length (x :: l))).
  assert (Hlen : len = Z.of_nat (length (x :: l))) by done.
  assert (0 < len) by (rewrite Hlen; simpl; lia).
  destruct (Z.ltb_spec (len + -1) 0); [lia |].
  destruct (Z.leb_spec len 0); [lia |]. cbn [orb].
  destruct (Z.leb_spec len (len + -1)); [lia |].
  replace (Z.to_nat (len + -1 - 0 + 1)) with (length (x :: l)) by lia.
  change (Z.to_nat 0) with 0%nat. rewrite drop_0. apply firstn_all.
Qed.

Lemma llist_lpush key v s : llist key (lpush key v s) = v :: llist key s.
Proof.
  unfold llist, lpush. destruct (s !! key) as [e |] eqn:E;
    by rewrite lookup_insert_eq.
Qed.

Lemma llist_pushed key val s :
  llist key (pushed key val s) = rev (map (fun i => (Marshal i).1) val) ++ llist key s.
Proof.
  unfold pushed. revert s. induction val as [| item val IH]; intros s; [done |].
  cbn [fold_left map rev]. rewrite IH, llist_lpush. by rewrite <- app_assoc.
Qed.

(** On a Redis server the loop of [Add] runs to its end. *)
Lemma run_Add_loop_redis key val s :
  run redis (Add_loop key val) s
  = (None, pushed key val s, map (fun i => LPush key (Marshal i).1) val).
Proof.
  revert s. induction val as [| item val IH]; intros s; [done |].
  rewrite run_Add_loop_cons. cbn [json_Marshal encoding_json Marshal redis].
  by rewrite IH.
Qed.

Lemma run_Add_redis c key val s :
  run redis (Add c key val) s
  = (None, expire key (ttl c) (pushed key val s),
     map (fun i => LPush key (Marshal i).1) val ++ [Expire key (ttl c)]).
Proof. by rewrite run_Add, run_Add_loop_redis. Qed.

Lemma run_Get_redis c key s :
  run redis (Get c key) s
  = (Get_loop 0 (llist key s) (replicate (length (llist key s)) CartItem_zero),
     s, [LRange key 0 (-1)]).
Proof.
  rewrite run_Get. unfold redis. cbv beta iota. rewrite lrange_all.
  by destruct (decide (@None GoError = Some redis_Nil)).
Qed.

Lemma decode_encoded (val : list CartItem) :
  Forall CartItem_wf val ->
  Get_loop 0 (map (fun i => (Marshal i).1) val)
           (replicate (length (map (fun i => (Marshal i).1) val)) CartItem_zero)
  = (val, None).
Proof.
  intros Hwf.
  assert (Hmap : map (fun v => (json_Unmarshal v).1)
                     (map (fun i => (Marshal i).1) val) = val).
  { induction Hwf as [| item val [Hv Hq] _ IH]; [done |].
    cbn [map]. cbn [json_Unmarshal encoding_json] in *.
    rewrite Unmarshal_Marshal by done. cbn [fst]. by rewrite IH. }
  pose proof (Get_loop_decodes (map (fun i => (Marshal i).1) val) []) as H.
  cbn [length app] in H. rewrite H; [by rewrite Hmap |].
  apply Forall_map. eapply Forall_impl; [exact Hwf |].
  intros item [Hv Hq]. cbn [json_Unmarshal encoding_json].
  by rewrite Unmarshal_Marshal.
Qed.

Lemma llist_absent key (s : gmap string entry) : s !! key = None -> llist key s = [].
Proof. unfold llist. by intros ->. Qed.

Lemma llist_present key (s : gmap string entry) :
  llist key s <> [] -> exists e, s !! key = Some e /\ elems e = llist key s.
Proof. unfold llist. destruct (s !! key) as [e |]; [by exists e | done]. Qed.

(** A positive time-to-live leaves the list as it is and, when the key is
    there, becomes its expiry. *)
Lemma formatSec_pos d : 0 < d -> 0 < formatSec d.
Proof.
  intros Hd. unfold formatSec, time_Second.
  destruct (Z.ltb_spec 0 d); [| lia].
  destruct (Z.ltb_spec d 1000000000); cbn [andb]; [lia |].
  rewrite Z.quot_div_nonneg by lia. Z.div_mod_to_equations. lia.
Qed.

Lemma llist_expire key d s : 0 < d -> llist key (expire key d s) = llist key s.
Proof.
  intros Hd. apply formatSec_pos in Hd.
  unfold expire, llist. destruct (s !! key) as [e |] eqn:E.
  - destruct (Z.leb_spec (formatSec d) 0); [lia |]. by rewrite lookup_insert_eq.
  - by rewrite E.
Qed.

Lemma expiry_expire key d s :
  0 < d -> llist key s <> [] ->
  expire key d s !! key ≫= expiry = Some (formatSec d).
Proof.
  intros Hd Hl. apply formatSec_pos in Hd.
  destruct (llist_present _ _ Hl) as (e & He & _).
  unfold expire. rewrite He. destruct (Z.leb_spec (formatSec d) 0); [lia |].
  by rewrite lookup_insert_eq.
Qed.

(** [Get] on a server whose list under [key] holds encodings of
    well-formed items. *)
Lemma Get_encoded c key s (val : list CartItem) :
  Forall CartItem_wf val ->
  llist key s = map (fun i => (Marshal i).1) val ->
  run redis (Get c key) s = ((val, None), s, [LRange key 0 (-1)]).
Proof.
  intros Hwf Hl. rewrite run_Get_redis, Hl. by rewrite decode_encoded.
Qed.

(** ** The claims *)

(** C1 (as the code behaves).  When the range read of [Get] comes back
    with an error other than [redis.Nil], [Get] never looks at the error:
    it decodes whatever elements came with it, exactly as for a reply
    without error.  With no elements, the case of a server that cannot be
    reached, [Get] completes successfully with an empty cart and a nil
    error. *)
Theorem Get_drops_store_error {codec : Codec} {Σ : Type} (h : handler Σ)
    c key s s1 val e :
  e ≠ redis_Nil ->
  h (LRange key 0 (-1)) s = ((val, Some e), s1) ->
  run h (Get c key) s
  = (Get_loop 0 val (replicate (length val) CartItem_zero), s1,
     [LRange key 0 (-1)])
  /\ (val = [] -> result (run h (Get c key) s) = ([], None)).
Proof.
  intros Hne Hh. rewrite run_Get, Hh.
  destruct (decide (Some e = Some redis_Nil)) as [[= ->] |]; [done |].
  split; [done |]. by intros ->.
Qed.

Lemma Get_drops_store_error_witness :
  run (lossy (lib_error "EOF")) (Get cache30 "cart") (0%nat, ∅)
  = (([], None), (0%nat, ∅), [LRange "cart" 0 (-1)]).
Proof.
  apply (Get_drops_store_error (lossy (lib_error "EOF")) cache30 "cart"
           (0%nat, ∅) (0%nat, ∅) [] (lib_error "EOF"));
    [discriminate | reflexivity].
Defined.

(** C2 (as the code behaves).  After [Add] of a non-empty list of
    well-formed items under a key the server did not have, with a positive
    TTL, the list stored under the key and the cart [Get] returns are the
    items in REVERSE order: [LPush] puts each item at the head. *)
Theorem Add_then_Get_reverses c key items (store : gmap string entry) :
  store !! key = None -> items <> [] -> 0 < ttl c ->
  Forall CartItem_wf items ->
  let s1 := final (run redis (Add c key items) store) in
  result (run redis (Add c key items) store) = None
  /\ llist key s1 = rev (map (fun i => (Marshal i).1) items)
  /\ result (run redis (Get c key) s1) = (rev items, None).
Proof.
  intros Habs Hne Httl Hwf. rewrite run_Add_redis. cbn [final result fst snd].
  assert (Hl : llist key (expire key (ttl c) (pushed key items store))
               = rev (map (fun i => (Marshal i).1) items)).
  { rewrite llist_expire, llist_pushed, (llist_absent _ _ Habs) by done.
    apply app_nil_r. }
  split; [done |]. split; [done |].
  rewrite (Get_encoded c key _ (rev items)); [done | by apply Forall_rev |].
  by rewrite Hl, map_rev.
Qed.

Lemma Add_then_Get_reverses_witness :
  result (run redis (Get cache30 "cart")
            (final (run redis (Add cache30 "cart" [mug; watch]) ∅)))
  = ([watch; mug], None).
Proof.
  apply (Add_then_Get_reverses cache30 "cart" [mug; watch] ∅);
    [reflexivity | discriminate | reflexivity |].
  repeat constructor.
Defined.

(** C3 (as the code behaves).  [Validate] returns the error "distributed
    cache host must be set" exactly when the host IS set, and accepts an
    empty host whenever the TTL parses. *)
Theorem Validate_host_polarity {parser : DurationParser} (cfg : config) :
  (Host cfg ≠ EmptyString ->
   Validate cfg = Some (fmt_Errorf "distributed cache host must be set"))
  /\ (Host cfg = EmptyString ->
      (time_ParseDuration (TTL cfg)).2 = None ->
      Validate cfg = None).
Proof.
  unfold Validate. split.
  - intros Hh. by destruct (decide (Host cfg ≠ EmptyString)).
  - intros Hh Hp. destruct (decide (Host cfg ≠ EmptyString)); [done |].
    by rewrite Hp.
Qed.

(** The two configurations of C3 under a parser that reads "30s". *)
Example Validate_set_host_rejected :
  @Validate whole_seconds (mkConfig "localhost:6379" "30s")
  = Some (fmt_Errorf "distributed cache host must be set").
Proof. reflexivity. Qed.

Example Validate_empty_host_accepted :
  @Validate whole_seconds (mkConfig "" "30s") = None.
Proof. reflexivity. Qed.

(** C4 (as the code behaves).  For a key the Redis server does not have,
    [Get] completes successfully with an empty cart: the reply to LRANGE
    is an empty array and no error, so the test for [redis.Nil] is never
    met. *)
Theorem Get_absent_key_is_empty_success c key (store : gmap string entry) :
  store !! key = None ->
  run redis (Get c key) store = (([], None), store, [LRange key 0 (-1)]).
Proof.
  intros Habs. rewrite run_Get_redis, (llist_absent _ _ Habs). reflexivity.
Qed.

Lemma Get_absent_key_is_empty_success_witness :
  run redis (Get cache30 "cart") ∅ = (([], None), ∅, [LRange "cart" 0 (-1)]).
Proof. apply (Get_absent_key_is_empty_success cache30 "cart" ∅). reflexivity. Defined.

(** The same after [Remove], and the branch of [Get] that a [redis.Nil]
    reply would take. *)
Lemma Get_after_Remove c key (store : gmap string entry) :
  result (run redis (Get c key) (final (run redis (Remove c key) store)))
  = ([], None).
Proof.
  unfold Remove. rewrite run_bind. cbn [invoke run redis final fst snd].
  rewrite run_Get_redis, llist_absent; [done | apply lookup_delete_eq].
Qed.

Lemma Get_redis_Nil {codec : Codec} {Σ : Type} (h : handler Σ) c key s val s1 :
  h (LRange key 0 (-1)) s = ((val, Some redis_Nil), s1) ->
  run h (Get c key) s = (([], Some errNotFound), s1, [LRange key 0 (-1)]).
Proof. intros Hh. rewrite run_Get, Hh. by destruct (decide _). Qed.

(** C5.  Let the first N-1 items of an [Add] encode and be appended
    without error, and let the N-th fail to encode or to be appended with
    error [e].  Then [Add] returns [e]; the calls it made are the appends
    of the first N-1 items, in order, and the failed append if there was
    one; the server is left as those calls left it (nothing is undone),
    no later item is sent and no [Expire] is issued. *)
Theorem Add_stops_at_first_failure {codec : Codec} {Σ : Type} (h : handler Σ)
    c key done item rest s s1 tr e s2 last :
  run h (Add_loop key done) s = (None, s1, tr) ->
  nth_fails h key item s1 e s2 last ->
  run h (Add c key (done ++ item :: rest)) s = (Some e, s2, tr ++ last)
  /\ tr = map (fun i => LPush key (json_Marshal i).1) done
  /\ Forall (fun c' => exists v, c' = LPush key v) (tr ++ last).
Proof.
  intros Hdone Hfail.
  destruct (Add_loop_done h _ _ _ _ _ Hdone) as [Htr _].
  assert (Hrun : run h (Add_loop key (done ++ item :: rest)) s
                 = (Some e, s2, tr ++ last)).
  { rewrite (Add_loop_app h _ _ _ _ _ _ Hdone), run_Add_loop_cons.
    destruct Hfail as [enc e Hm | enc e s2 Hm Hh]; rewrite Hm.
    - done.
    - by rewrite Hh. }
  split; [by rewrite run_Add, Hrun |]. split; [done |].
  apply Forall_app. split.
  - rewrite Htr. clear. induction done; simpl; constructor; eauto.
  - destruct Hfail; repeat constructor. eauto.
Qed.

Lemma Add_stops_at_first_failure_witness :
  run (lossy (lib_error "EOF")) (Add cache30 "cart" ([mug; watch] ++ socks :: [mug]))
      (2%nat, ∅)
  = (Some (lib_error "EOF"),
     (0%nat, lpush "cart" (Marshal watch).1 (lpush "cart" (Marshal mug).1 ∅)),
     [LPush "cart" (Marshal mug).1; LPush "cart" (Marshal watch).1]
     ++ [LPush "cart" (Marshal socks).1]).
Proof.
  refine (proj1 (Add_stops_at_first_failure (lossy (lib_error "EOF")) cache30
            "cart" [mug; watch] socks [mug] (2%nat, ∅) _ _ _ _ _ _ _)).
  - vm_compute. reflexivity.
  - apply (nth_append_fails _ _ _ _ (Marshal socks).1); vm_compute; reflexivity.
Defined.

(** C6 (as stated) fails at each of these inputs; both calls of [Add]
    succeed at all of them.
    - The key already holds a list (one pair of socks): [Get] returns the
      mug and the socks, not what the two calls added.
    - The key is new, a mug is added and then a watch: [Get] returns the
      watch before the mug (the head insertion of C2).
    - The key is new and both lists are empty: no key comes to exist, so
      none has a time to live.
    - The TTL is 1500ms: [Expire] sends whole seconds, and the key lives
      one second.
    - The TTL is zero: [Expire] deletes the key that was just filled.
    - A product id is not valid UTF-8: [Get] returns another id. *)
Lemma TTL_refresh_counterexample :
  (let store : gmap string entry :=
     {[ "cart"%string := mkEntry [(Marshal socks).1] None ]} in
   let s1 := final (run redis (Add cache30 "cart" [mug]) store) in
   let s2 := final (run redis (Add cache30 "cart" []) s1) in
   result (run redis (Add cache30 "cart" [mug]) store) = None
   /\ result (run redis (Add cache30 "cart" []) s1) = None
   /\ result (run redis (Get cache30 "cart") s2) = ([mug; socks], None)
   /\ result (run redis (Get cache30 "cart") s2) <> ([mug] ++ [], None))
  /\ (let s1 := final (run redis (Add cache30 "cart" [mug]) ∅) in
      let s2 := final (run redis (Add cache30 "cart" [watch]) s1) in
      result (run redis (Add cache30 "cart" [mug]) ∅) = None
      /\ result (run redis (Add cache30 "cart" [watch]) s1) = None
      /\ result (run redis (Get cache30 "cart") s2) = ([watch; mug], None)
      /\ result (run redis (Get cache30 "cart") s2) <> ([mug] ++ [watch], None))
  /\ (let s1 := final (run redis (Add cache30 "cart" []) ∅) in
      let s2 := final (run redis (Add cache30 "cart" []) s1) in
      result (run redis (Add cache30 "cart" []) ∅) = None
      /\ result (run redis (Add cache30 "cart" []) s1) = None
      /\ s2 !! "cart"%string = None)
  /\ (let c := mkImpl (mkConfig "" "1500ms") None 1500000000 in
      let s1 := final (run redis (Add c "cart" [mug]) ∅) in
      let s2 := final (run redis (Add c "cart" [watch]) s1) in
      result (run redis (Add c "cart" [mug]) ∅) = None
      /\ result (run redis (Add c "cart" [watch]) s1) = None
      /\ s2 !! "cart"%string ≫= expiry = Some 1
      /\ 1 * time_Second <> ttl c)
  /\ (let c := mkImpl (mkConfig "" "0s") None 0 in
      let s1 := final (run redis (Add c "cart" [mug]) ∅) in
      let s2 := final (run redis (Add c "cart" [watch]) s1) in
      result (run redis (Add c "cart" [mug]) ∅) = None
      /\ result (run redis (Add c "cart" [watch]) s1) = None
      /\ s2 !! "cart"%string = None
      /\ result (run redis (Get c "cart") s2) = ([], None))
  /\ (let item := mkCartItem (String "255" EmptyString) 1 in
      let s1 := final (run redis (Add cache30 "cart" [item]) ∅) in
      let s2 := final (run redis (Add cache30 "cart" []) s1) in
      result (run redis (Add cache30 "cart" [item]) ∅) = None
      /\ result (run redis (Add cache30 "cart" []) s1) = None
      /\ (result (run redis (Get cache30 "cart") s2)).2 = None
      /\ (result (run redis (Get cache30 "cart") s2)).1 <> [item] ++ []).
Proof. vm_compute. repeat split; discriminate. Qed.

(** C6 (amended).  For a key the server does not have, a positive TTL and
    well-formed items, not all lists empty: [Add] of [items1] succeeds;
    let the server then be in any state [s1'] in which the key holds the
    list that call left, with whatever remains of its time to live.
    [Add] of [items2] succeeds there, [Get] then succeeds with the items
    of [items1 ++ items2], each as often as it occurs there, and the time
    to live of the key has been set anew by the second [Add]: it is the
    configured TTL as [Expire] sends it, in whole seconds, whatever it was
    in [s1']; for a TTL of whole seconds that is the TTL itself. *)
Theorem Add_twice_then_Get c key items1 items2 (store s1' : gmap string entry) :
  store !! key = None -> items1 ++ items2 <> [] -> 0 < ttl c ->
  Forall CartItem_wf (items1 ++ items2) ->
  llist key s1' = llist key (final (run redis (Add c key items1) store)) ->
  let s2 := final (run redis (Add c key items2) s1') in
  result (run redis (Add c key items1) store) = None
  /\ result (run redis (Add c key items2) s1') = None
  /\ (result (run redis (Get c key) s2)).2 = None
  /\ (result (run redis (Get c key) s2)).1 ≡ₚ items1 ++ items2
  /\ s2 !! key ≫= expiry = Some (formatSec (ttl c))
  /\ (forall n, ttl c = n * time_Second -> s2 !! key ≫= expiry = Some n).
Proof.
  intros Habs Hne Httl Hwf Hs1. cbv zeta.
  rewrite run_Add_redis in Hs1. cbn [final fst snd] in Hs1.
  rewrite llist_expire, llist_pushed, (llist_absent _ _ Habs), app_nil_r in Hs1
    by done.
  rewrite run_Add_redis. cbn [final result fst snd].
  rewrite run_Add_redis. cbn [final result fst snd].
  set (s2 := expire key (ttl c) (pushed key items2 s1')).
  assert (Hl : llist key (pushed key items2 s1')
               = map (fun i => (Marshal i).1) (rev (items1 ++ items2))).
  { rewrite llist_pushed, Hs1.
    rewrite rev_app_distr, map_app, !map_rev. done. }
  assert (Hl2 : llist key s2 = map (fun i => (Marshal i).1) (rev (items1 ++ items2)))
    by (unfold s2; by rewrite llist_expire).
  split; [done |]. split; [done |].
  rewrite (Get_encoded c key s2 (rev (items1 ++ items2)));
    [| by apply Forall_rev | done].
  cbn [fst snd]. split; [done |]. split; [symmetry; apply Permutation_rev |].
  assert (He : s2 !! key ≫= expiry = Some (formatSec (ttl c))).
  { unfold s2. apply expiry_expire; [done |]. rewrite Hl.
    intros Hnil. apply map_eq_nil in Hnil.
    apply (f_equal (@rev CartItem)) in Hnil. rewrite rev_involutive in Hnil.
    done. }
  split; [done |]. intros n Hn. rewrite He. f_equal.
  unfold formatSec, time_Second in *.
  destruct (Z.ltb_spec 0 (ttl c)); [| lia].
  destruct (Z.ltb_spec (ttl c) 1000000000); cbn [andb]; [lia |].
  rewrite Hn. apply Z.quot_mul. done.
Qed.

(** The instance of 18 seconds after the first [Add], with 12 seconds
    left to the key, and nothing added by the second [Add]. *)
Lemma Add_twice_then_Get_witness :
  let s1' : gmap string entry :=
    {[ "cart"%string := mkEntry [(Marshal watch).1; (Marshal mug).1] (Some 12) ]} in
  let s2 := final (run redis (Add cache30 "cart" []) s1') in
  (result (run redis (Get cache30 "cart") s2)).1 ≡ₚ [mug; watch] ++ []
  /\ s1' !! "cart"%string ≫= expiry = Some 12
  /\ s2 !! "cart"%string ≫= expiry = Some 30.
Proof.
  pose proof (Add_twice_then_Get cache30 "cart" [mug; watch] [] ∅
                {[ "cart"%string :=
                     mkEntry [(Marshal watch).1; (Marshal mug).1] (Some 12) ]}) as H.
  destruct H as (_ & _ & _ & Hp & He & _);
    [reflexivity | discriminate | reflexivity | repeat constructor | reflexivity |].
  split; [exact Hp |]. split; [reflexivity | exact He].
Defined.

(** C7 (as stated) fails for a product id that is not valid UTF-8:
    [json.Marshal] writes the replacement character for the byte 0xFF,
    and [json.Unmarshal] reads the three bytes of U+FFFD. *)
Lemma decode_encode_counterexample :
  Unmarshal (Marshal (mkCartItem (String "255" EmptyString) 1)).1
  = (mkCartItem (String "239" (String "191" (String "189" EmptyString))) 1, None)
  /\ Unmarshal (Marshal (mkCartItem (String "255" EmptyString) 1)).1
     <> (mkCartItem (String "255" EmptyString) 1, None).
Proof. vm_compute. split; [reflexivity | discriminate]. Qed.

(** C7 (amended).  For every item whose product id is valid UTF-8 (and
    whose quantity is an int32), unmarshalling what [json.Marshal] wrote
    succeeds and gives the item back. *)
Theorem decode_encode_valid item :
  CartItem_wf item ->
  json_Unmarshal (json_Marshal item).1 = (item, None).
Proof. intros [Hv Hq]. by apply Unmarshal_Marshal. Qed.

Lemma decode_encode_valid_witness :
  json_Unmarshal (json_Marshal mug).1 = (mug, None).
Proof. apply (decode_encode_valid mug). split; reflexivity. Defined.

(** C8.  [Remove] issues one [Del]; it returns [(true, nil)] when the
    call succeeds and [(false, err)] with the server's own error when it
    fails.  On a Redis server the call succeeds whether or not the key was
    there. *)
Theorem Remove_reports_the_delete_call {Σ : Type} (h : handler Σ) c key s :
  run h (Remove c key) s =
    (match (h (Del key) s).1 with
     | None => (true, None)
     | Some e => (false, Some e)
     end, (h (Del key) s).2, [Del key])
  /\ forall store : gmap string entry,
       run redis (Remove c key) store = ((true, None), delete key store, [Del key]).
Proof.
  split; [| done].
  unfold Remove. rewrite run_bind. unfold invoke. cbn [run].
  by destruct (h (Del key) s) as [[e |] s1].
Qed.

(** C9.  When the TTL of the configuration does not parse, [Init]
    returns the parser's error without making any call: no client is
    created and nothing is sent to the server. *)
Theorem Init_fails_before_connecting {parser : DurationParser} {Σ : Type}
    (h : handler Σ) c d e s :
  time_ParseDuration (TTL (Config c)) = (d, Some e) ->
  run h (Init c) s = ((mkImpl (Config c) (redisCli c) d, Some e), s, []).
Proof. intros Hp. unfold Init. by rewrite Hp. Qed.

Lemma Init_fails_before_connecting_witness :
  run redis (@Init whole_seconds (mkImpl (mkConfig "localhost:6379" "notaduration") None 0)) ∅
  = ((mkImpl (mkConfig "localhost:6379" "notaduration") None 0,
      Some (lib_error "time: invalid duration")), ∅, []).
Proof.
  apply (@Init_fails_before_connecting whole_seconds _ redis
           (mkImpl (mkConfig "localhost:6379" "notaduration") None 0)).
  reflexivity.
Defined.

(** C10.  [Add] with no items sends no [LPush]: its only call is one
    [Expire] of the key with the configured TTL, and it returns what that
    call returns. *)
Theorem Add_nothing_only_expires {codec : Codec} {Σ : Type} (h : handler Σ) c key s :
  run h (Add c key []) s =
  ((h (Expire key (ttl c)) s).1, (h (Expire key (ttl c)) s).2,
   [Expire key (ttl c)]).
Proof.
  rewrite run_Add. cbn [Add_loop run].
  by destruct (h (Expire key (ttl c)) s) as [r s1].
Qed.

(** ** Further properties of the component *)

(** [Init] when the TTL parses. *)
Lemma run_Init_parsed {parser : DurationParser} {Σ : Type}
    (h : handler Σ) c d s :
  time_ParseDuration (TTL (Config c)) = (d, None) ->
  run h (Init c) s
  = ((mkImpl (Config c) (Some {| opt_of := {| Addr := Host (Config c) |} |}) d,
      (h Ping (h (NewClient {| Addr := Host (Config c) |}) s).2).1),
     (h Ping (h (NewClient {| Addr := Host (Config c) |}) s).2).2,
     [NewClient {| Addr := Host (Config c) |}; Ping]).
Proof.
  intros Hp. unfold Init. rewrite Hp. cbn [Config ttl].
  rewrite run_bind. unfold invoke at 1. cbn [run].
  destruct (h (NewClient _) s) as [[] s1]. cbn [snd].
  rewrite run_bind. unfold invoke. cbn [run].
  by destruct (h Ping s1) as [r s2].
Qed.

(** X1.  When the TTL of the configuration parses, [Init] makes exactly
    two calls, the creation of a client for the configured host and one
    [Ping], and returns what [Ping] returns.  The component keeps the
    parsed TTL and the client whether or not the server answered: a failed
    [Ping] undoes nothing. *)
Theorem Init_connects_and_pings {parser : DurationParser} {Σ : Type}
    (h : handler Σ) c d s :
  time_ParseDuration (TTL (Config c)) = (d, None) ->
  let o := {| Addr := Host (Config c) |} in
  let s1 := (h (NewClient o) s).2 in
  run h (Init c) s
  = ((mkImpl (Config c) (Some {| opt_of := o |}) d, (h Ping s1).1),
     (h Ping s1).2, [NewClient o; Ping]).
Proof. intros Hp. cbv zeta. by apply run_Init_parsed. Qed.

Lemma Init_connects_and_pings_witness :
  run (lossy (lib_error "connection refused"))
      (@Init whole_seconds (mkImpl (mkConfig "cache:6379" "30s") None 0))
      (1%nat, ∅)
  = ((mkImpl (mkConfig "cache:6379" "30s")
        (Some {| opt_of := {| Addr := "cache:6379" |} |}) 30000000000,
      Some (lib_error "connection refused")),
     (0%nat, ∅), [NewClient {| Addr := "cache:6379" |}; Ping]).
Proof.
  apply (@Init_connects_and_pings whole_seconds _
           (lossy (lib_error "connection refused"))
           (mkImpl (mkConfig "cache:6379" "30s") None 0) 30000000000 (1%nat, ∅)).
  reflexivity.
Defined.

(** X2.  A configuration that [Validate] accepts makes [Init] create its
    client with an empty address: [Validate] lets through only
    configurations without a host, and [Init] passes the host on as it
    is. *)
Theorem Validated_config_has_no_address {parser : DurationParser} {Σ : Type}
    (h : handler Σ) c s :
  Validate (Config c) = None ->
  trace (run h (Init c) s) = [NewClient {| Addr := EmptyString |}; Ping].
Proof.
  unfold Validate. intros Hv.
  destruct (decide (Host (Config c) ≠ EmptyString)) as [| Hh]; [done |].
  apply dec_stable in Hh.
  destruct (time_ParseDuration (TTL (Config c))) as [d [e |]] eqn:Hp; [done |].
  rewrite (run_Init_parsed h c d s Hp). cbn [trace snd]. by rewrite Hh.
Qed.

Lemma Validated_config_has_no_address_witness :
  trace (run redis (@Init whole_seconds (mkImpl (mkConfig "" "30s") None 0)) ∅)
  = [NewClient {| Addr := EmptyString |}; Ping].
Proof.
  apply (@Validated_config_has_no_address whole_seconds _ redis
           (mkImpl (mkConfig "" "30s") None 0) ∅).
  reflexivity.
Defined.

(** X17.  [Validate] and [Init] read the TTL in the same way: a
    configuration that [Validate] turns down for its TTL makes [Init] fail
    before it creates a client, without a call and without a change to the
    server.  [Validate] reports its own message, [Init] the error of the
    parser. *)
Theorem Validate_TTL_error_stops_Init {parser : DurationParser} {Σ : Type}
    (h : handler Σ) c s :
  Validate (Config c)
  = Some (fmt_Errorf "distributed cache TTL must be a valid duration") ->
  (result (run h (Init c) s)).2 = (time_ParseDuration (TTL (Config c))).2
  /\ (result (run h (Init c) s)).2 <> None
  /\ final (run h (Init c) s) = s
  /\ trace (run h (Init c) s) = [].
Proof.
  unfold Validate. intros Hv.
  destruct (decide (Host (Config c) ≠ EmptyString)) as [| Hh]; [done |].
  unfold Init.
  destruct (time_ParseDuration (TTL (Config c))) as [d [e |]]; [done | done].
Qed.

Lemma Validate_TTL_error_stops_Init_witness :
  trace (run redis (@Init whole_seconds (mkImpl (mkConfig "" "soon") None 0)) ∅)
  = [].
Proof.
  apply (@Validate_TTL_error_stops_Init whole_seconds _ redis
           (mkImpl (mkConfig "" "soon") None 0) ∅).
  reflexivity.
Defined.

(** X3.  When every item has been encoded and appended and the [Expire]
    that follows fails, [Add] returns the error of [Expire]: all the items
    stay in the list, the calls made are the appends in order and the one
    [Expire], and nothing is undone. *)
Theorem Add_Expire_fails {codec : Codec} {Σ : Type} (h : handler Σ)
    c key val s s1 tr e s2 :
  run h (Add_loop key val) s = (None, s1, tr) ->
  h (Expire key (ttl c)) s1 = (Some e, s2) ->
  run h (Add c key val) s = (Some e, s2, tr ++ [Expire key (ttl c)])
  /\ tr = map (fun i => LPush key (json_Marshal i).1) val.
Proof.
  intros Hloop He. rewrite run_Add, Hloop, He. split; [done |].
  by destruct (Add_loop_done h _ _ _ _ _ Hloop).
Qed.

Lemma Add_Expire_fails_witness :
  run (lossy (lib_error "EOF")) (Add cache30 "cart" [mug; watch]) (2%nat, ∅)
  = (Some (lib_error "EOF"),
     (0%nat, lpush "cart" (Marshal watch).1 (lpush "cart" (Marshal mug).1 ∅)),
     [LPush "cart" (Marshal mug).1; LPush "cart" (Marshal watch).1]
     ++ [Expire "cart" 30000000000]).
Proof.
  refine (proj1 (Add_Expire_fails (lossy (lib_error "EOF")) cache30 "cart"
            [mug; watch] (2%nat, ∅) _ _ _ _ _ _)).
  - vm_compute. reflexivity.
  - vm_compute. reflexivity.
Defined.

(** The calls of the loop of [Add] are appends to its key, at most one
    for each item. *)
Lemma Add_loop_calls {codec : Codec} {Σ : Type} (h : handler Σ) key val s :
  Forall (fun c => exists v, c = LPush key v) (trace (run h (Add_loop key val) s))
  /\ (length (trace (run h (Add_loop key val) s)) <= length val)%nat.
Proof.
  revert s. induction val as [| item val IH]; intros s.
  - split; [constructor | done].
  - rewrite run_Add_loop_cons.
    destruct (json_Marshal item) as [enc [e |]]; [split; [constructor | simpl; lia] |].
    destruct (h (LPush key enc) s) as [[e |] s1].
    + split; [repeat constructor; eauto | simpl; lia].
    + specialize (IH s1).
      destruct (run h (Add_loop key val) s1) as [[r s2] tr].
      cbn [trace snd length] in *. destruct IH as [IH1 IH2].
      split; [constructor; eauto | lia].
Qed.

(** X4.  Whatever the server answers, every call [Add] makes is an append
    to its own key or the [Expire] of that key with the configured TTL:
    it never reads, never deletes and never touches another key; and it
    makes at most one call for each item and one more. *)
Theorem Add_writes_only_to_its_key {codec : Codec} {Σ : Type} (h : handler Σ)
    c key val s :
  Forall (writes_to key (ttl c)) (trace (run h (Add c key val) s))
  /\ (length (trace (run h (Add c key val) s)) <= length val + 1)%nat.
Proof.
  rewrite run_Add. destruct (Add_loop_calls h key val s) as [HF Hlen].
  destruct (run h (Add_loop key val) s) as [[[e |] s1] tr]; cbn [trace snd] in *.
  - split; [| lia]. eapply Forall_impl; [exact HF |]. intros x Hx. by left.
  - destruct (h (Expire key (ttl c)) s1) as [r s2]. cbn [trace snd].
    split; [| rewrite length_app; simpl; lia].
    apply Forall_app. split.
    + eapply Forall_impl; [exact HF |]. intros x Hx. by left.
    + constructor; [by right | constructor].
Qed.

(** X5.  [Get] only reads: whatever the server answers and whether or not
    the elements decode, its one call is the [LRange] of the whole list of
    its key; on a Redis server the store, times to live included, is
    afterwards what it was. *)
Theorem Get_only_reads {codec : Codec} {Σ : Type} (h : handler Σ) c key s :
  trace (run h (Get c key) s) = [LRange key 0 (-1)]
  /\ final (run h (Get c key) s) = (h (LRange key 0 (-1)) s).2
  /\ forall store : gmap string entry,
       final (run redis (Get c key) store) = store.
Proof.
  assert (Hg : forall Σ' (h' : handler Σ') s',
    trace (run h' (Get c key) s') = [LRange key 0 (-1)]
    /\ final (run h' (Get c key) s') = (h' (LRange key 0 (-1)) s').2).
  { intros Σ' h' s'. rewrite run_Get.
    by destruct (h' (LRange key 0 (-1)) s') as [[val err] s1]. }
  split; [apply Hg |]. split; [apply Hg |].
  intros store. by rewrite (proj2 (Hg _ redis store)).
Qed.

(** The loop of [Get] stops at the first element that does not decode. *)
Lemma Get_loop_fails {codec : Codec} pre v post item e :
  Forall (fun v => (json_Unmarshal v).2 = None) pre ->
  json_Unmarshal v = (item, Some e) ->
  forall i cart, Get_loop i (pre ++ v :: post) cart = ([], Some e).
Proof.
  intros Hpre Hv. induction Hpre as [| u pre Hu _ IH]; intros i cart.
  - cbn [app Get_loop]. by rewrite Hv.
  - cbn [app Get_loop]. destruct (json_Unmarshal u) as [it err].
    simpl in Hu. subst err. apply IH.
Qed.

(** X6.  When an element of the list does not decode, [Get] returns the
    error of the first such element and no items: the items decoded before
    it are dropped, whatever follows it. *)
Theorem Get_decode_failure {codec : Codec} {Σ : Type} (h : handler Σ)
    c key s s1 pre v post err item e :
  h (LRange key 0 (-1)) s = ((pre ++ v :: post, err), s1) ->
  err <> Some redis_Nil ->
  Forall (fun u => (json_Unmarshal u).2 = None) pre ->
  json_Unmarshal v = (item, Some e) ->
  result (run h (Get c key) s) = ([], Some e).
Proof.
  intros Hh Hne Hpre Hv. rewrite run_Get, Hh.
  destruct (decide (err = Some redis_Nil)); [done |].
  cbn [result fst]. by eapply Get_loop_fails.
Qed.

Lemma Get_decode_failure_witness :
  result (run redis (Get cache30 "cart")
            {[ "cart"%string := mkEntry [(Marshal mug).1; "{"%string; (Marshal watch).1] None ]})
  = ([], Some json_SyntaxError).
Proof.
  apply (Get_decode_failure redis cache30 "cart"
           {[ "cart"%string := mkEntry [(Marshal mug).1; "{"%string; (Marshal watch).1] None ]}
           {[ "cart"%string := mkEntry [(Marshal mug).1; "{"%string; (Marshal watch).1] None ]}
           [(Marshal mug).1] "{"%string [(Marshal watch).1] None CartItem_zero).
  - reflexivity.
  - discriminate.
  - repeat constructor.
  - reflexivity.
Defined.

(** X7.  When every element of the list decodes, [Get] returns the
    decoded elements in the order of the reply, one item for each
    element. *)
Theorem Get_keeps_order {codec : Codec} {Σ : Type} (h : handler Σ)
    c key s s1 val err :
  h (LRange key 0 (-1)) s = ((val, err), s1) ->
  err <> Some redis_Nil ->
  Forall (fun v => (json_Unmarshal v).2 = None) val ->
  result (run h (Get c key) s) = (map (fun v => (json_Unmarshal v).1) val, None)
  /\ length (result (run h (Get c key) s)).1 = length val.
Proof.
  intros Hh Hne Hval. rewrite run_Get, Hh.
  destruct (decide (err = Some redis_Nil)); [done |]. cbn [result fst].
  pose proof (Get_loop_decodes val [] Hval) as Hl. cbn [length app] in Hl.
  rewrite Hl. cbn [fst]. split; [done |]. apply length_map.
Qed.

Lemma Get_keeps_order_witness :
  result (run redis (Get cache30 "cart")
            {[ "cart"%string := mkEntry [(Marshal mug).1; (Marshal watch).1] None ]})
  = ([mug; watch], None).
Proof.
  destruct (Get_keeps_order redis cache30 "cart"
           {[ "cart"%string := mkEntry [(Marshal mug).1; (Marshal watch).1] None ]}
           {[ "cart"%string := mkEntry [(Marshal mug).1; (Marshal watch).1] None ]}
           [(Marshal mug).1; (Marshal watch).1] None) as [H _].
  - reflexivity.
  - discriminate.
  - repeat constructor.
  - exact H.
Defined.

(** ** Further properties on a Redis server *)

Lemma pushed_app key a b s : pushed key (a ++ b) s = pushed key b (pushed key a s).
Proof. unfold pushed. apply fold_left_app. Qed.

Lemma lpush_other key k v (s : gmap string entry) :
  k <> key -> lpush key v s !! k = s !! k.
Proof.
  intros Hk. unfold lpush. destruct (s !! key); by rewrite lookup_insert_ne.
Qed.

Lemma pushed_other key k val (s : gmap string entry) :
  k <> key -> pushed key val s !! k = s !! k.
Proof.
  intros Hk. unfold pushed. revert s.
  induction val as [| item val IH]; intros s; [done |].
  cbn [fold_left]. by rewrite IH, lpush_other.
Qed.

Lemma lpush_key key v (s : gmap string entry) :
  lpush key v s !! key
  = Some (mkEntry (v :: llist key s) (s !! key ≫= expiry)).
Proof.
  unfold lpush, llist. destruct (s !! key) as [e |]; by rewrite lookup_insert_eq.
Qed.

Lemma pushed_key key val (s : gmap string entry) :
  val <> [] ->
  pushed key val s !! key
  = Some (mkEntry (rev (map (fun i => (Marshal i).1) val) ++ llist key s)
                  (s !! key ≫= expiry)).
Proof.
  revert s. induction val as [| i val IH]; intros s Hne; [done |].
  change (pushed key (i :: val) s) with (pushed key val (lpush key (Marshal i).1 s)).
  destruct val as [| j val].
  - change (pushed key [] ?x) with x. by rewrite lpush_key.
  - rewrite IH by done. rewrite llist_lpush, lpush_key. cbn [mbind option_bind expiry].
    f_equal. f_equal. cbn [map rev]. by rewrite <- !app_assoc.
Qed.

Lemma expire_other key k d (s : gmap string entry) :
  k <> key -> expire key d s !! k = s !! k.
Proof.
  intros Hk. unfold expire. destruct (s !! key); [| done].
  destruct (_ <=? _); [by rewrite lookup_delete_ne | by rewrite lookup_insert_ne].
Qed.

Lemma expire_key key d (s : gmap string entry) :
  expire key d s !! key
  = match s !! key with
    | Some e => if formatSec d <=? 0 then None
                else Some (mkEntry (elems e) (Some (formatSec d)))
    | None => None
    end.
Proof.
  unfold expire. destruct (s !! key) as [e |] eqn:E; [| done].
  destruct (_ <=? _); [by rewrite lookup_delete_eq | by rewrite lookup_insert_eq].
Qed.

Lemma formatSec_nonpos d : d <= 0 -> formatSec d <= 0.
Proof.
  intros Hd. unfold formatSec, time_Second.
  destruct (_ && _) eqn:E.
  - apply andb_true_iff in E as [E _]. lia.
  - rewrite <- (Z.opp_involutive d), Z.quot_opp_l by lia.
    pose proof (Z.quot_pos (- d) 1000000000). lia.
Qed.

Lemma llist_expire_secs key d s :
  0 < formatSec d -> llist key (expire key d s) = llist key s.
Proof.
  intros Hd. unfold llist. rewrite expire_key.
  destruct (s !! key); [| done].
  destruct (Z.leb_spec (formatSec d) 0); [lia | done].
Qed.

Lemma expire_pushed_expire key d val (s : gmap string entry) :
  expire key d (pushed key val (expire key d s)) = expire key d (pushed key val s).
Proof.
  apply map_eq. intros k. destruct (decide (k = key)) as [-> | Hk].
  - destruct val as [| i val].
    + change (pushed key [] ?x) with x. rewrite !expire_key.
      destruct (s !! key) as [e |]; [| done].
      by destruct (formatSec d <=? 0).
    + rewrite expire_key, (expire_key key d (pushed _ _ s)), !pushed_key by done.
      destruct (Z.leb_spec (formatSec d) 0); [done |].
      cbn [elems]. by rewrite llist_expire_secs.
  - by rewrite !expire_other, !pushed_other, expire_other.
Qed.

Lemma store_member_errors st m :
  st.2 = None \/ st.2 = Some json_UnmarshalTypeError ->
  (store_member st m).2 = None \/ (store_member st m).2 = Some json_UnmarshalTypeError.
Proof.
  intros Hst. unfold store_member. destruct (find_field m.1) as [f |]; [| done].
  assert (Hs : (saveError st.2) = Some json_UnmarshalTypeError).
  { by destruct Hst as [-> | ->]. }
  destruct st as [item saved]. cbn [snd] in *. unfold store.
  destruct m.2, f; cbn [snd]; auto.
  destruct (strconv_ParseInt _); [destruct (int32 _) |]; cbn [snd]; auto.
Qed.

Lemma Unmarshal_errors v e :
  (Unmarshal v).2 = Some e -> e = json_SyntaxError \/ e = json_UnmarshalTypeError.
Proof.
  unfold Unmarshal. destruct (parse v) as [j |]; [| cbn; intros [= <-]; by left].
  assert (Hf : forall ms st,
    st.2 = None \/ st.2 = Some json_UnmarshalTypeError ->
    (fold_left store_member ms st).2 = None
    \/ (fold_left store_member ms st).2 = Some json_UnmarshalTypeError).
  { induction ms as [| m ms IH]; intros st Hst; [done |].
    cbn [fold_left]. by apply IH, store_member_errors. }
  destruct j as [| | | | | ms]; cbn [snd]; try (intros [= <-]; by right); try done.
  intros He. destruct (Hf ms (CartItem_zero, None)) as [H | H]; [by left | |];
    rewrite He in H; [done | injection H as ->; by right].
Qed.

Lemma Get_loop_error {codec : Codec} i val cart e :
  (Get_loop i val cart).2 = Some e ->
  exists v, v ∈ val /\ (json_Unmarshal v).2 = Some e.
Proof.
  revert i cart. induction val as [| v val IH]; intros i cart; [done |].
  cbn [Get_loop]. destruct (json_Unmarshal v) as [item [e' |]] eqn:E.
  - cbn. intros [= <-]. exists v. rewrite E. split; [left | done].
  - intros H. destruct (IH _ _ H) as (w & Hw & He). exists w. split; [by right | done].
Qed.

(** X8.  With the JSON codec, [Get] returns [errNotFound] exactly when
    the reply to its LRANGE carries the error [redis.Nil]: no other error
    of the server and no cart element, whatever its bytes, makes it
    return [errNotFound].  On a Redis server, whatever it stores, the only
    errors of [Get] are those of the decoder. *)
Theorem Get_errNotFound_iff_redis_Nil {Σ : Type} (h : handler Σ) c key s :
  ((result (run h (Get c key) s)).2 = Some errNotFound
   <-> (h (LRange key 0 (-1)) s).1.2 = Some redis_Nil)
  /\ forall (store : gmap string entry) e,
       (result (run redis (Get c key) store)).2 = Some e ->
       e = json_SyntaxError \/ e = json_UnmarshalTypeError.
Proof.
  split.
  - rewrite run_Get. destruct (h (LRange key 0 (-1)) s) as [[val err] s1].
    cbn [result fst snd]. destruct (decide (err = Some redis_Nil)) as [-> | Hn]; [done |].
    split; [| done]. intros He.
    destruct (Get_loop_error _ _ _ _ He) as (v & _ & Hv).
    by destruct (Unmarshal_errors _ _ Hv).
  - intros store e. rewrite run_Get_redis. cbn [result fst snd]. intros He.
    destruct (Get_loop_error _ _ _ _ He) as (v & _ & Hv).
    by apply (Unmarshal_errors v).
Qed.



(** X10.  On a Redis server, [Add] and [Remove] on a key leave every
    other key as it was: its elements and its expiry. *)
Theorem Add_and_Remove_keep_other_keys c key other items
    (store : gmap string entry) :
  other <> key ->
  final (run redis (Add c key items) store) !! other = store !! other
  /\ final (run redis (Remove c key) store) !! other = store !! other.
Proof.
  intros Hk. split.
  - rewrite run_Add_redis. cbn [final fst snd].
    by rewrite expire_other, pushed_other.
  - unfold Remove. rewrite run_bind. cbn [invoke run redis final fst snd].
    by apply lookup_delete_ne.
Qed.

Lemma Add_and_Remove_keep_other_keys_witness :
  final (run redis (Add cache30 "cart" [watch; socks])
           {[ "wishes"%string := mkEntry [(Marshal mug).1] (Some 7) ]})
    !! "wishes"%string
  = Some (mkEntry [(Marshal mug).1] (Some 7)).
Proof.
  destruct (Add_and_Remove_keep_other_keys cache30 "cart" "wishes" [watch; socks]
              {[ "wishes"%string := mkEntry [(Marshal mug).1] (Some 7) ]})
    as [H _].
  - discriminate.
  - rewrite H. reflexivity.
Defined.

(** X11.  With a TTL that is zero or negative, [Add] on a Redis server
    stores nothing: it succeeds, and afterwards the key does not exist,
    whatever it held before and whatever was added, so that [Get] returns
    an empty cart. *)
Theorem Add_nonpositive_TTL_empties_the_key c key items
    (store : gmap string entry) :
  ttl c <= 0 ->
  let s1 := final (run redis (Add c key items) store) in
  result (run redis (Add c key items) store) = None
  /\ s1 !! key = None
  /\ result (run redis (Get c key) s1) = ([], None).
Proof.
  intros Httl s1.
  assert (Hk : s1 !! key = None).
  { subst s1. rewrite run_Add_redis. cbn [final fst snd]. rewrite expire_key.
    destruct (pushed key items store !! key); [| done].
    pose proof (formatSec_nonpos _ Httl).
    destruct (Z.leb_spec (formatSec (ttl c)) 0); [done | lia]. }
  split; [by rewrite run_Add_redis |]. split; [done |].
  by rewrite run_Get_redis, (llist_absent _ _ Hk).
Qed.

Lemma Add_nonpositive_TTL_empties_the_key_witness :
  final (run redis (Add (mkImpl (mkConfig "" "0s") None 0) "cart" [watch])
           {[ "cart"%string := mkEntry [(Marshal mug).1] None ]})
    !! "cart"%string = None.
Proof.
  destruct (Add_nonpositive_TTL_empties_the_key
              (mkImpl (mkConfig "" "0s") None 0) "cart" [watch]
              {[ "cart"%string := mkEntry [(Marshal mug).1] None ]})
    as (_ & H & _).
  - cbn. lia.
  - exact H.
Defined.

(** X12.  On a Redis server, [Remove] after [Add] leaves the server as
    [Remove] alone would have: nothing of what [Add] stored under the key
    remains, and no other key is changed. *)
Theorem Remove_undoes_Add c key items (store : gmap string entry) :
  final (run redis (Remove c key) (final (run redis (Add c key items) store)))
  = final (run redis (Remove c key) store).
Proof.
  unfold Remove. rewrite !run_bind. cbn [invoke run redis final fst snd].
  rewrite run_Add_redis. cbn [final fst snd].
  apply map_eq. intros k. destruct (decide (k = key)) as [-> | Hk].
  - by rewrite !lookup_delete_eq.
  - by rewrite !lookup_delete_ne, expire_other, pushed_other.
Qed.

(** X13.  On a Redis server, adding [items1 ++ items2] in one call of
    [Add] leaves the server in the same state as adding [items1] and then
    [items2] in two calls. *)
Theorem Add_of_concatenation c key items1 items2 (store : gmap string entry) :
  final (run redis (Add c key (items1 ++ items2)) store)
  = final (run redis (Add c key items2)
             (final (run redis (Add c key items1) store))).
Proof.
  rewrite (run_Add_redis c key items2), !run_Add_redis. cbn [final fst snd].
  by rewrite expire_pushed_expire, pushed_app.
Qed.

(** ** Strings that are not valid UTF-8 *)

Lemma utf8_decode_one a0 r0 c taken rest :
  utf8_decode (String a0 r0) = (c, taken, rest) ->
  String.length taken = 1%nat ->
  rest = r0.
Proof.
  unfold utf8_decode.
  destruct (byte a0 <? 0x80); [by intros [= <- <- <-] |].
  destruct (utf8_first (byte a0)) as [[[sz lo] hi] |]; [| by intros [= <- <- <-]].
  destruct r0 as [| a1 r1]; [by intros [= <- <- <-] |].
  destruct (outside lo hi (byte a1)); [by intros [= <- <- <-] |].
  destruct (sz <=? 2)%nat; [by intros [= <- <- <-] |].
  destruct r1 as [| a2 r2]; [by intros [= <- <- <-] |].
  destruct (outside 0x80 0xBF (byte a2)); [by intros [= <- <- <-] |].
  destruct (sz <=? 3)%nat; [by intros [= <- <- <-] |].
  destruct r2 as [| a3 r3]; [by intros [= <- <- <-] |].
  destruct (outside 0x80 0xBF (byte a3)); by intros [= <- <- <-].
Qed.

Lemma string_lit_ufffd n X :
  string_lit (S n) ("\ufffd" +:+ X) = push (utf8_EncodeRune RuneError) (string_lit n X).
Proof. reflexivity. Qed.

Lemma string_lit_string_body_coerce m :
  forall s n rest,
    (String.length s <= m)%nat ->
    (String.length (string_body m s) < n)%nat ->
    string_lit n (string_body m s +:+ String dquote rest)
    = Some (utf8_coerce_from m s, rest).
Proof.
  induction m as [| m IH]; intros s n rest Hlen Hn.
  { destruct s; [| simpl in Hlen; lia]. destruct n; [simpl in Hn; lia |].
    reflexivity. }
  destruct s as [| a r].
  { destruct n; [simpl in Hn; lia |]. reflexivity. }
  cbn [string_body utf8_coerce_from] in *.
  destruct (byte a <? 0x80) eqn:Ea.
  - assert (Hd : utf8_decode (String a r) = (byte a, String a EmptyString, r))
      by (unfold utf8_decode; by rewrite Ea).
    rewrite Hd.
    assert (Hb : (byte a =? RuneError) = false).
    { unfold RuneError. destruct (Z.ltb_spec (byte a) 0x80); [| done].
      destruct (Z.eqb_spec (byte a) 0xFFFD); [lia | done]. }
    rewrite Hb. cbn [andb]. simpl in Hlen.
    destruct (htmlSafeSet (byte a)) eqn:Es.
    + destruct n as [| n]; [simpl in Hn; lia |]. simpl in Hn.
      rewrite append_cons, string_lit_safe by (done || lia).
      rewrite IH by (done || lia). done.
    + rewrite length_append in Hn.
      assert (1 <= String.length (escape_ascii a))%nat by (simpl; lia).
      destruct n as [| n]; [lia |].
      rewrite append_assoc, string_lit_escape by done.
      rewrite IH by (done || lia). done.
  - destruct (utf8_decode (String a r)) as [[c taken] r'] eqn:Hd.
    destruct ((c =? RuneError) && (String.length taken =? 1)%nat) eqn:Hbad.
    + apply andb_true_iff in Hbad as [_ Hone]. apply Nat.eqb_eq in Hone.
      rewrite (utf8_decode_one _ _ _ _ _ Hd Hone) in *.
      rewrite length_append in Hn. simpl in Hn, Hlen.
      destruct n as [| n]; [lia |].
      rewrite append_assoc, string_lit_ufffd.
      rewrite IH by (done || lia). done.
    + destruct (utf8_decode_wellformed _ _ _ _ _ Hd Hbad)
        as (Hs & [t' ->] & Henc & Hdec & Hshort).
      simpl in Hlen, Hshort.
      destruct ((c =? 0x2028) || (c =? 0x2029)) eqn:Hc.
      * rewrite length_append in Hn. simpl in Hn.
        rewrite append_assoc, (append_cons (hex _)).
        destruct n as [| n]; [lia |].
        rewrite string_lit_u202x by (cmp_in Hc; auto; discriminate).
        rewrite IH by (done || lia). simpl. by rewrite Henc.
      * rewrite append_assoc. rewrite length_append in Hn. simpl in Hn.
        destruct n as [| n]; [lia |].
        rewrite (string_lit_rune _ _ _ c); [| lia | apply Hdec].
        rewrite IH by (done || lia). simpl. by rewrite Henc.
Qed.

Lemma string_lit_encode_coerce s rest :
  string_lit (String.length (string_body (String.length s) s +:+ String dquote rest))
             (string_body (String.length s) s +:+ String dquote rest)
  = Some (utf8_coerce s, rest).
Proof.
  apply string_lit_string_body_coerce; [done |].
  rewrite length_append. simpl. lia.
Qed.

Lemma utf8_coerce_from_valid m :
  forall s, (String.length s <= m)%nat ->
    utf8_Valid_from m s = true -> utf8_coerce_from m s = s.
Proof.
  induction m as [| m IH]; intros s Hlen Hv.
  { destruct s; [done | simpl in Hlen; lia]. }
  destruct s as [| a r]; [done |].
  cbn [utf8_Valid_from utf8_coerce_from] in *.
  destruct (utf8_decode (String a r)) as [[c taken] r'] eqn:Hd.
  destruct ((c =? RuneError) && (String.length taken =? 1)%nat) eqn:Hbad; [done |].
  destruct (utf8_decode_wellformed _ _ _ _ _ Hd Hbad) as (Hs & _ & _ & _ & Hshort).
  simpl in Hlen, Hshort. rewrite IH by (done || lia). done.
Qed.

Lemma utf8_coerce_from_is_valid m :
  forall s k, (String.length s <= m)%nat ->
    utf8_Valid_from k (utf8_coerce_from m s) = true.
Proof.
  induction m as [| m IH]; intros s k Hlen.
  { destruct s; [by destruct k | simpl in Hlen; lia]. }
  destruct s as [| a r]; [by destruct k |].
  cbn [utf8_coerce_from].
  destruct (utf8_decode (String a r)) as [[c taken] r'] eqn:Hd.
  destruct ((c =? RuneError) && (String.length taken =? 1)%nat) eqn:Hbad.
  - apply andb_true_iff in Hbad as [_ Hone]. apply Nat.eqb_eq in Hone.
    rewrite (utf8_decode_one _ _ _ _ _ Hd Hone) in *. simpl in Hlen.
    destruct k as [| k]; [done |].
    change (utf8_EncodeRune RuneError +:+ ?X)
      with (String (chr 0xEF) (String (chr 0xBF) (String (chr 0xBD) X))).
    cbn [utf8_Valid_from].
    change (utf8_decode (String (chr 0xEF) (String (chr 0xBF) (String (chr 0xBD) ?X))))
      with (RuneError, String (chr 0xEF) (String (chr 0xBF) (String (chr 0xBD) EmptyString)), X).
    cbn [String.length Nat.eqb andb]. rewrite Bool.andb_false_r.
    apply IH. lia.
  - destruct (utf8_decode_wellformed _ _ _ _ _ Hd Hbad)
      as (Hs & [t' ->] & Henc & Hdec & Hshort).
    simpl in Hlen, Hshort. destruct k as [| k]; [done |].
    rewrite append_cons. cbn [utf8_Valid_from]. rewrite <- append_cons, Hdec, Hbad.
    apply IH. lia.
Qed.

Lemma Unmarshal_Marshal_coerced item :
  int32 (Quantity item) = true ->
  Unmarshal (Marshal item).1 = (CartItem_coerced item, None).
Proof.
  destruct item as [pid q]. cbn [ProductID Quantity fst Marshal]. intros Hq.
  unfold Unmarshal, parse, encode_string.
  rewrite !append_cons, !append_nil, append_assoc, !append_cons, !append_nil.
  cbn [String.length].
  match goal with |- context [String.length ?s] => generalize (String.length s) end.
  intros n.
  change (value (S (S ?k)) 0%N (String "{" ?r)) with (members (S k) 1%N r []).
  erewrite members_colon by reflexivity.
  rewrite value_string, string_lit_encode_coerce by done.
  change (skip_space (String "," ?r)) with (String "," r). cbn iota.
  change (byte "," =? 0x2C) with true. cbn iota.
  change (skip_space (String dquote ?r)) with (String dquote r).
  erewrite members_colon by reflexivity.
  rewrite value_number by reflexivity.
  change (skip_space (String "}" ?r)) with (String "}" r). cbn iota.
  change (byte "}" =? 0x2C) with false. change (byte "}" =? 0x7D) with true.
  cbn iota. cbn [skip_space app fold_left].
  unfold store_member. cbn [fst snd].
  change (find_field "ProductID") with (Some FProductID).
  change (find_field "Quantity") with (Some FQuantity).
  cbn [store Quantity ProductID CartItem_zero].
  rewrite ParseInt_FormatInt; [by rewrite Hq |].
  unfold int32 in Hq. cmp_in Hq; discriminate Hq.
Qed.

(** ** The encoding of every item *)

(** X14.  Every cart item with a 32-bit quantity encodes, and its
    encoding decodes without error to the item with its product
    identifier coerced to valid UTF-8: the quantity is kept, each byte of
    the identifier outside a well-formed sequence has become U+FFFD and
    the rest of the identifier is unchanged.  The result is valid UTF-8,
    and an identifier that was valid already comes back as it was. *)
Theorem Unmarshal_Marshal_coerces item :
  int32 (Quantity item) = true ->
  (Marshal item).2 = None
  /\ Unmarshal (Marshal item).1 = (CartItem_coerced item, None)
  /\ utf8_ValidString (ProductID (CartItem_coerced item)) = true
  /\ (utf8_ValidString (ProductID item) = true -> CartItem_coerced item = item).
Proof.
  intros Hq. split; [done |]. split; [by apply Unmarshal_Marshal_coerced |]. split.
  - apply utf8_coerce_from_is_valid. done.
  - intros Hv. destruct item as [pid q]. unfold CartItem_coerced, utf8_coerce.
    cbn [ProductID Quantity] in *. by rewrite utf8_coerce_from_valid.
Qed.

Lemma Unmarshal_Marshal_coerces_witness :
  Unmarshal (Marshal (mkCartItem (String (chr 0xC3) (String (chr 0x28) "-7")) 3)).1
  = (mkCartItem (String (chr 0xEF) (String (chr 0xBF) (String (chr 0xBD) "(-7"))) 3,
     None).
Proof.
  destruct (Unmarshal_Marshal_coerces
              (mkCartItem (String (chr 0xC3) (String (chr 0x28) "-7")) 3))
    as (_ & H & _).
  - reflexivity.
  - exact H.
Defined.

(** X15.  A second trip through the encoding changes nothing: encoding
    what was decoded from the encoding of an item, and decoding again,
    gives the same item and no error. *)
Theorem Second_round_trip_is_exact item :
  int32 (Quantity item) = true ->
  Unmarshal (Marshal (Unmarshal (Marshal item).1).1).1
  = Unmarshal (Marshal item).1.
Proof.
  intros Hq. rewrite (Unmarshal_Marshal_coerced item Hq). cbn [fst].
  apply Unmarshal_Marshal; [| done].
  apply utf8_coerce_from_is_valid. done.
Qed.

Lemma Second_round_trip_is_exact_witness :
  Unmarshal (Marshal (Unmarshal
    (Marshal (mkCartItem (String (chr 0xFF) "mug") (-2))).1).1).1
  = Unmarshal (Marshal (mkCartItem (String (chr 0xFF) "mug") (-2))).1.
Proof.
  apply (Second_round_trip_is_exact (mkCartItem (String (chr 0xFF) "mug") (-2))).
  reflexivity.
Defined.

(** X16.  On a Redis server with a positive TTL, whatever the product
    identifiers of the items are, [Get] after [Add] on a key that did not
    exist succeeds: no item that [Add] stored fails to decode.  It returns
    the items in reverse, each with its identifier coerced to valid
    UTF-8. *)
Theorem Add_then_Get_always_decodes c key items (store : gmap string entry) :
  store !! key = None -> 0 < ttl c ->
  Forall (fun i => int32 (Quantity i) = true) items ->
  result (run redis (Get c key) (final (run redis (Add c key items) store)))
  = (rev (map CartItem_coerced items), None).
Proof.
  intros Habs Httl Hq. rewrite run_Add_redis. cbn [final fst snd].
  rewrite run_Get_redis. cbn [result fst].
  rewrite llist_expire, llist_pushed, (llist_absent _ _ Habs), app_nil_r by done.
  pose proof (Get_loop_decodes (rev (map (fun i => (Marshal i).1) items)) []) as H.
  cbn [length app] in H. rewrite H.
  - f_equal. rewrite <- !map_rev, map_map. apply map_ext_Forall.
    apply Forall_rev. eapply Forall_impl; [exact Hq |].
    intros i Hi. exact (f_equal fst (Unmarshal_Marshal_coerced i Hi)).
  - rewrite <- map_rev. apply Forall_map. apply Forall_rev.
    eapply Forall_impl; [exact Hq |].
    intros i Hi. exact (f_equal snd (Unmarshal_Marshal_coerced i Hi)).
Qed.

Lemma Add_then_Get_always_decodes_witness :
  result (run redis (Get cache30 "cart")
            (final (run redis
                      (Add cache30 "cart" [mkCartItem (String (chr 0xFF) "mug") 1; watch])
                      ∅)))
  = ([watch;
      mkCartItem (String (chr 0xEF) (String (chr 0xBF) (String (chr 0xBD) "mug"))) 1],
     None).
Proof.
  apply (Add_then_Get_always_decodes cache30 "cart"
           [mkCartItem (String (chr 0xFF) "mug") 1; watch] ∅).
  - reflexivity.
  - reflexivity.
  - repeat constructor.
Defined.
